(** * pyCandle2017: the aggregated-derivative input and the player manager

    A shallow embedding of [inputs/agd/input.py] (module [Agd]) and of
    [player/player_manager.py] (module [Player]), with the properties of the
    specification stated and proved over it.

    Readings, thresholds and levels are Python integers, modelled as [Z].
    Log calls have no effect on the state or on the wiring and are left out. *)

From stdpp Require Import base list strings gmap pretty.
From Stdlib Require Import ZArith Lia Ascii.

Open Scope Z_scope.

(** ** Python helpers shared by both modules *)

(** [enumerate(iterable, start)]. *)
Fixpoint enumerate {A : Type} (start : Z) (l : list A) : list (Z * A) :=
  match l with
  | [] => []
  | x :: l' => (start, x) :: enumerate (start + 1) l'
  end.

(** [l[i] = v] on a Python list: a negative index counts from the end, and an
    index that is still out of range raises [IndexError] ([None] here). *)
Definition list_setitem {A : Type} (l : list A) (i : Z) (v : A) : option (list A) :=
  let n := Z.of_nat (length l) in
  let j := if bool_decide (i < 0) then i + n else i in
  if bool_decide (0 <= j < n) then Some (<[Z.to_nat j := v]> l) else None.

(** [deque.append] on a deque with [maxlen]: the item goes to the right end,
    and when the deque then holds more than [maxlen] items the leftmost one
    is dropped. [maxlen = None] is the unbounded deque. *)
Definition deque_append {A : Type} (maxlen : option nat) (d : list A) (x : A) : list A :=
  let d' := d ++ [x] in
  match maxlen with
  | Some m => if bool_decide (m < length d')%nat then tail d' else d'
  | None => d'
  end.

(** ** inputs/agd/input.py *)

Module Agd.

(** What the processor calls on the wiring. *)
Inductive Signal : Type :=
| notify_agd_threshold (level value : Z)
| agd_output (raw agd : Z)
| change_play_level (play_level : Z) (comment : string).

(** The fields of an [AggregatedDerivative] object. [_readings] lists the
    deque from its oldest item to its newest one. *)
Record AggregatedDerivative : Type := {
  _thresholds : list Z;
  _source_type : string;
  _readings : list Z;
  _maxlen : option nat;
  _last_play_level : Z
}.

Definition __init__ (buffer_size : option nat) (thresholds : list Z) (source : string)
  : AggregatedDerivative :=
  {| _thresholds := thresholds;
     _source_type := source;
     _readings := [];
     _maxlen := buffer_size;
     _last_play_level := 0 |}.

Definition _notify_agd_thresholds (self : AggregatedDerivative) : list Signal :=
  map (fun '(level, value) => notify_agd_threshold level value)
      (enumerate 1 (_thresholds self)).

(** [self._thresholds] after an item assignment; the list is updated in
    place, the other fields stay. *)
Definition with_thresholds (self : AggregatedDerivative) (thresholds : list Z)
  : AggregatedDerivative :=
  {| _thresholds := thresholds;
     _source_type := _source_type self;
     _readings := _readings self;
     _maxlen := _maxlen self;
     _last_play_level := _last_play_level self |}.

(** The [try] succeeds when the assignment does, and [except IndexError]
    leaves the object as it was. *)
Definition _set_threshold (self : AggregatedDerivative) (level value : Z)
  : AggregatedDerivative * list Signal :=
  match list_setitem (_thresholds self) (level - 1) value with
  | None => (self, [])
  | Some thresholds' =>
      (with_thresholds self thresholds', [notify_agd_threshold level value])
  end.

(** The [while True] loop of [_pairs_from], entered with [one] bound and
    [rest] still to be delivered by the iterator. *)
Fixpoint _pairs_loop (one : Z) (rest : list Z) : list (Z * Z) :=
  match rest with
  | [] => []
  | other :: rest' => (one, other) :: _pairs_loop other rest'
  end.

Definition _pairs_from (iterable : list Z) : list (Z * Z) :=
  match iterable with
  | [] => []
  | one :: rest => _pairs_loop one rest
  end.

(** One turn of the [for] loop of [_aggregated_derivative]. *)
Definition _derivative_step (result : Z) (pair : Z * Z) : Z :=
  let '(one, next_one) := pair in
  let derivative := next_one - one in
  if bool_decide (derivative >= 0) then result + derivative else 0.

Definition _aggregated_derivative (self : AggregatedDerivative) : Z :=
  fold_left _derivative_step (_pairs_from (_readings self)) 0.

(** The threshold scan of [_handle_new_reading]: [play_level] starts at 0 and
    every level whose threshold is met overwrites it. *)
Definition _scan_step (agd : Z) (play_level : Z) (entry : Z * Z) : Z :=
  let '(level, threshold) := entry in
  if bool_decide (agd >= threshold) then level else play_level.

Definition _scan_thresholds (agd : Z) (thresholds : list Z) : Z :=
  fold_left (_scan_step agd) (enumerate 1 thresholds) 0.

(** [self._readings.append(reading)]. *)
Definition _track (self : AggregatedDerivative) (reading : Z) : AggregatedDerivative :=
  {| _thresholds := _thresholds self;
     _source_type := _source_type self;
     _readings := deque_append (_maxlen self) (_readings self) reading;
     _maxlen := _maxlen self;
     _last_play_level := _last_play_level self |}.

Definition _set_last_play_level (self : AggregatedDerivative) (play_level : Z)
  : AggregatedDerivative :=
  {| _thresholds := _thresholds self;
     _source_type := _source_type self;
     _readings := _readings self;
     _maxlen := _maxlen self;
     _last_play_level := play_level |}.

(** ['agd-%s == %r' % (self._source_type, agd)]. *)
Definition _comment (self : AggregatedDerivative) (agd : Z) : string :=
  "agd-" +:+ _source_type self +:+ " == " +:+ pretty agd.

Definition _handle_new_reading (self : AggregatedDerivative) (reading : Z)
  : AggregatedDerivative * list Signal :=
  let self1 := _track self reading in
  let agd := _aggregated_derivative self1 in
  let play_level := _scan_thresholds agd (_thresholds self1) in
  if bool_decide (play_level <> _last_play_level self1) then
    (_set_last_play_level self1 play_level,
     [agd_output reading agd; change_play_level play_level (_comment self1 agd)])
  else
    (self1, [agd_output reading agd]).

(** What arrives over the wiring, and the handler wired to each in
    [__init__]. *)
Inductive Input : Type :=
| new_reading (reading : Z)
| request_agd_thresholds
| set_agd_threshold (level value : Z).

Definition handle (self : AggregatedDerivative) (i : Input)
  : AggregatedDerivative * list Signal :=
  match i with
  | new_reading reading => _handle_new_reading self reading
  | request_agd_thresholds => (self, _notify_agd_thresholds self)
  | set_agd_threshold level value => _set_threshold self level value
  end.

(** The inputs are handled one after the other, each call running to its end
    before the next; the signals are collected in the order they are sent. *)
Fixpoint run (self : AggregatedDerivative) (inputs : list Input)
  : AggregatedDerivative * list Signal :=
  match inputs with
  | [] => (self, [])
  | i :: inputs' =>
      let '(self1, out1) := handle self i in
      let '(self2, out2) := run self1 inputs' in
      (self2, out1 ++ out2)
  end.

(** The play levels carried by the [change_play_level] signals of a trace. *)
Definition play_levels (out : list Signal) : list Z :=
  omap (fun s => match s with change_play_level l _ => Some l | _ => None end) out.

(** The aggregated values carried by the [agd_output] signals of a trace. *)
Definition agd_values (out : list Signal) : list Z :=
  omap (fun s => match s with agd_output _ a => Some a | _ => None end) out.

(** *** The aggregation rule as the specification words it

    The consecutive pairs of the buffer are its items at positions [i] and
    [i + 1]; the running total starts at 0, grows by a delta that is not
    negative and falls back to 0 on a negative one. *)
Definition spec_pairs (buffer : list Z) : list (Z * Z) :=
  zip buffer (tail buffer).

Definition spec_step (total : Z) (pair : Z * Z) : Z :=
  let delta := pair.2 - pair.1 in
  if bool_decide (delta < 0) then 0 else total + delta.

Definition spec_aggregate (buffer : list Z) : Z :=
  if bool_decide (length buffer < 2)%nat then 0
  else fold_left spec_step (spec_pairs buffer) 0.

(** A buffer whose readings never decrease from one position to the next. *)
Definition non_decreasing (buffer : list Z) : Prop :=
  forall (i : nat) (a b : Z),
    buffer !! i = Some a -> buffer !! S i = Some b -> a <= b.

(** *** Reading a trace

    The readings among the inputs, in arrival order. *)
Definition readings_of (inputs : list Input) : list Z :=
  omap (fun i => match i with new_reading r => Some r | _ => None end) inputs.

(** The raw readings carried by the [agd_output] signals of a trace. *)
Definition raw_values (out : list Signal) : list Z :=
  omap (fun s => match s with agd_output r _ => Some r | _ => None end) out.

(** The threshold notifications of a trace. *)
Definition threshold_notifications (out : list Signal) : list (Z * Z) :=
  omap (fun s => match s with notify_agd_threshold l v => Some (l, v) | _ => None end) out.

(** The [m] newest items of a sequence. *)
Definition newest {A : Type} (m : nat) (l : list A) : list A :=
  drop (length l - m) l.

(** The thresholds of a table that a value meets. *)
Definition met (agd : Z) (thresholds : list Z) : list Z :=
  filter (fun t => t <= agd) thresholds.

(** No two neighbours of a sequence of levels are the same level. *)
Fixpoint adjacent_distinct (levels : list Z) : bool :=
  match levels with
  | a :: (b :: _) as rest => negb (bool_decide (a = b)) && adjacent_distinct rest
  | _ => true
  end.

End Agd.

(** ** player/player_manager.py *)

Module Player.

(** An [OMXPlayer] object as [PlayerManager] builds it. [ident] stands for
    the object's identity: two players built from the same arguments are
    still two objects. The keyword arguments left out take their defaults,
    [None] here. *)
Record OMXPlayer : Type := {
  ident : nat;
  filename : string;
  layer : Z;
  loop : bool;
  fadein : option Z;
  fadeout : option Z
}.

(** One entry of [settings['levels']]. *)
Record LevelInfo : Type := {
  level_folder : string;
  level_fadein : Z;
  level_fadeout : Z
}.

(** The fields of a [PlayerManager] that its methods read or write:
    [files] is the dictionary filled by [_find_files], [levels] is
    [settings['levels']], keyed by the level written in decimal. *)
Record PlayerManager : Type := {
  files : gmap Z (list string);
  levels : gmap string LevelInfo;
  base_player : option OMXPlayer;
  current_level : Z;
  current_player : option OMXPlayer
}.

Definition set_base_player (p : option OMXPlayer) (self : PlayerManager) : PlayerManager :=
  {| files := files self; levels := levels self; base_player := p;
     current_level := current_level self; current_player := current_player self |}.

Definition set_current_level (n : Z) (self : PlayerManager) : PlayerManager :=
  {| files := files self; levels := levels self; base_player := base_player self;
     current_level := n; current_player := current_player self |}.

Definition set_current_player (p : option OMXPlayer) (self : PlayerManager) : PlayerManager :=
  {| files := files self; levels := levels self; base_player := base_player self;
     current_level := current_level self; current_player := p |}.

Inductive Exn : Type :=
| KeyError (key : string)
| ValueError
| Failure (reason : string).

(** The deferreds a method waits on: the D-Bus connection, the spawn of a
    player (with the level its [end_callable] passes to [_player_ended],
    when one is given) and the stop of a player. *)
Inductive Deferred : Type :=
| connect_to_dbus
| spawn (player : OMXPlayer) (end_level : option Z)
| stop_player (player : OMXPlayer).

(** A method body as a tree of the steps it takes: reads and writes of
    [self], a draw from [random], the construction of an object, a [yield]
    on a deferred (an [inlineCallbacks] generator is resumed when the
    deferred fires, and a failed deferred is raised at the [yield]), the
    firing of [self.done], a [return] and a [raise]. *)
Inductive Task (A : Type) : Type :=
| Ret (a : A)
| Raise (e : Exn)
| Get (k : PlayerManager -> Task A)
| Put (self : PlayerManager) (k : Task A)
| Sample (population : list string) (k : string -> Task A)
| New (init : nat -> OMXPlayer) (k : OMXPlayer -> Task A)
| Yield (d : Deferred) (k : Task A)
| Done (k : Task A).

Arguments Ret {A} a.
Arguments Raise {A} e.
Arguments Get {A} k.
Arguments Put {A} self k.
Arguments Sample {A} population k.
Arguments New {A} init k.
Arguments Yield {A} d k.
Arguments Done {A} k.

Fixpoint bind {A B : Type} (t : Task A) (f : A -> Task B) : Task B :=
  match t with
  | Ret a => f a
  | Raise e => Raise e
  | Get k => Get (fun self => bind (k self) f)
  | Put self k => Put self (bind k f)
  | Sample population k => Sample population (fun x => bind (k x) f)
  | New init k => New init (fun p => bind (k p) f)
  | Yield d k => Yield d (bind k f)
  | Done k => Done (bind k f)
  end.

#[global] Instance task_ret : MRet Task := @Ret.
#[global] Instance task_bind : MBind Task := fun A B f t => bind t f.

Definition get : Task PlayerManager := Get Ret.
Definition modify (f : PlayerManager -> PlayerManager) : Task unit :=
  Get (fun self => Put (f self) (Ret tt)).
Definition yield (d : Deferred) : Task unit := Yield d (Ret tt).
Definition new (init : nat -> OMXPlayer) : Task OMXPlayer := New init Ret.
Definition raise {A : Type} (e : Exn) : Task A := Raise e.

(** [d[key]] on a dictionary, raising [KeyError] for a missing key. *)
Definition getitem {K V : Type} `{Countable K} (d : gmap K V) (key : K) (repr : string)
  : Task V :=
  match d !! key with
  | Some v => Ret v
  | None => raise (KeyError repr)
  end.

(** [random.sample(population, 1)[0]]: [ValueError] on an empty population,
    otherwise one of its items. *)
Definition random_sample1 (population : list string) : Task string :=
  match population with
  | [] => raise ValueError
  | _ :: _ => Sample population Ret
  end.

Definition _get_file_for_level (level : Z) : Task string :=
  self ← get;
  population ← getitem (files self) level (pretty level);
  random_sample1 population.

Definition start : Task unit :=
  yield connect_to_dbus;;
  file ← _get_file_for_level 0;
  player ← new (fun i => {| ident := i; filename := file; layer := 0; loop := true;
                            fadein := None; fadeout := None |});
  modify (set_base_player (Some player));;
  yield (spawn player None).

Definition level (n : Z) : Task unit :=
  self ← get;
  if bool_decide (n < current_level self) then mret tt
  else
    file ← _get_file_for_level n;
    info ← getitem (levels self) (pretty n) (pretty n);
    new_player ← new (fun i => {| ident := i; filename := file; layer := n;
                                  loop := false;
                                  fadein := Some (level_fadein info);
                                  fadeout := Some (level_fadeout info) |});
    yield (spawn new_player (Some n));;
    self ← get;
    match current_player self with
    | Some player => yield (stop_player player)
    | None => mret tt
    end;;
    modify (set_current_level n);;
    modify (set_current_player (Some new_player)).

Definition _player_ended (level : Z) : Task unit :=
  modify (set_current_level 0);;
  modify (set_current_player None).

Definition stop : Task unit :=
  self ← get;
  match current_player self with
  | Some player => yield (stop_player player)
  | None => mret tt
  end;;
  self ← get;
  match base_player self with
  | Some player => yield (stop_player player)
  | None => raise (Failure "'NoneType' object has no attribute 'stop'")
  end;;
  Done (Ret tt).

(** *** Running a method

    The outside of the manager: which item [random] draws, and whether a
    deferred fires or fails. A method is run from its call to its end: no
    other callback of the reactor touches the manager while it waits at a
    [yield], so the fields it reads after a wait are the ones it left.
    [self.done] fires once: [callback] on a deferred that has fired already
    raises [AlreadyCalledError]. *)
Record Env : Type := {
  draw : list string -> nat;
  outcome : Deferred -> option Exn
}.

(** What a run leaves behind: the number of objects built so far, the
    deferreds waited on, each with the manager's fields at the moment of the
    [yield], and whether [self.done] has fired. *)
Record World : Type := {
  allocated : nat;
  history : list (Deferred * PlayerManager);
  done : bool
}.

Definition alloc (w : World) : World :=
  {| allocated := S (allocated w); history := history w; done := done w |}.

Definition record (d : Deferred) (self : PlayerManager) (w : World) : World :=
  {| allocated := allocated w; history := history w ++ [(d, self)]; done := done w |}.

Definition fire_done (w : World) : World :=
  {| allocated := allocated w; history := history w; done := true |}.

(** The item [random] draws from a population. *)
Definition drawn (env : Env) (population : list string) : string :=
  nth (draw env population mod length population)%nat population "".

Fixpoint run {A : Type} (env : Env) (t : Task A) (w : World) (self : PlayerManager)
  : World * PlayerManager * (Exn + A) :=
  match t with
  | Ret a => (w, self, inr a)
  | Raise e => (w, self, inl e)
  | Get k => run env (k self) w self
  | Put self' k => run env k w self'
  | Sample population k => run env (k (drawn env population)) w self
  | New init k => run env (k (init (allocated w))) (alloc w) self
  | Yield d k =>
      match outcome env d with
      | None => run env k (record d self w) self
      | Some e => (record d self w, self, inl e)
      end
  | Done k =>
      if done w then (w, self, inl (Failure "AlreadyCalledError"))
      else run env k (fire_done w) self
  end.

(** The deferreds a run has added to the history. *)
Definition issued (w w' : World) : list (Deferred * PlayerManager) :=
  drop (length (history w)) (history w').

Definition is_spawn (d : Deferred) : bool :=
  match d with spawn _ _ => true | _ => false end.

Definition is_stop (d : Deferred) : bool :=
  match d with stop_player _ => true | _ => false end.

(** Level [n] has a media pool with at least one file and an entry in the
    settings: the lookups of [level] succeed. *)
Definition playable (self : PlayerManager) (n : Z) : Prop :=
  (exists file pool, files self !! n = Some (file :: pool)) /\
  is_Some (levels self !! pretty n).

(** The player [level n] builds in an environment, when the lookups
    succeed. *)
Definition new_player_of (env : Env) (w : World) (self : PlayerManager) (n : Z)
  : option OMXPlayer :=
  population ← files self !! n;
  info ← levels self !! pretty n;
  match population with
  | [] => None
  | _ :: _ =>
      Some {| ident := allocated w; filename := drawn env population; layer := n;
              loop := false;
              fadein := Some (level_fadein info);
              fadeout := Some (level_fadeout info) |}
  end.

(** *** Player names

    File names are handled as sequences of characters. [rfind c s] is
    [s.rfind(c)] for a one-character [c]: the highest index at which [c]
    occurs in [s], or -1. *)
Fixpoint rfind (c : Ascii.ascii) (s : list Ascii.ascii) : Z :=
  match s with
  | [] => -1
  | x :: s' =>
      let r := rfind c s' in
      if bool_decide (0 <= r) then r + 1
      else if bool_decide (x = c) then 0 else -1
  end.

(** [os.path.basename] of [posixpath]: [i = p.rfind('/') + 1; return p[i:]]. *)
Definition basename (p : list Ascii.ascii) : list Ascii.ascii :=
  let i := rfind "/"%char p + 1 in
  drop (Z.to_nat i) p.

(** The [while filenameIndex < dotIndex] loop of [genericpath._splitext],
    with [steps] turns left: the first character that is not a dot ends it
    with the split at [dotIndex]; when only dots come before [dotIndex] the
    path has no extension. *)
Fixpoint _splitext_loop (p : list Ascii.ascii) (filenameIndex steps dotIndex : nat)
  : list Ascii.ascii * list Ascii.ascii :=
  match steps with
  | O => (p, [])
  | S steps' =>
      if bool_decide (p !! filenameIndex <> Some "."%char)
      then (take dotIndex p, drop dotIndex p)
      else _splitext_loop p (S filenameIndex) steps' dotIndex
  end.

(** [os.path.splitext] of [posixpath]. *)
Definition splitext (p : list Ascii.ascii) : list Ascii.ascii * list Ascii.ascii :=
  let sepIndex := rfind "/"%char p in
  let dotIndex := rfind "."%char p in
  if bool_decide (dotIndex > sepIndex) then
    _splitext_loop p (Z.to_nat (sepIndex + 1)) (Z.to_nat (dotIndex - (sepIndex + 1)))
      (Z.to_nat dotIndex)
  else (p, []).

Definition generate_player_name (filename : string) : string :=
  "com.nunogodinho.vela2017-"
  +:+ String.string_of_list_ascii (splitext (basename (String.list_ascii_of_string filename))).1.

(** *** A small installation for the examples

    Three levels above the base one, a file or two for each, and a world in
    which a few objects were built already. *)
Definition demo_files : gmap Z (list string) :=
  <[0 := ["media/0/idle.mp4"]]>
  (<[1 := ["media/1/spark.mp4"; "media/1/glow.mp4"]]>
  (<[2 := ["media/2/flame.mp4"]]>
  (<[3 := ["media/3/blaze.mp4"]]> ∅))).

Definition demo_levels : gmap string LevelInfo :=
  <["0" := {| level_folder := "media/0"; level_fadein := 0; level_fadeout := 0 |}]>
  (<["1" := {| level_folder := "media/1"; level_fadein := 1; level_fadeout := 2 |}]>
  (<["2" := {| level_folder := "media/2"; level_fadein := 1; level_fadeout := 3 |}]>
  (<["3" := {| level_folder := "media/3"; level_fadein := 2; level_fadeout := 4 |}]> ∅))).

Definition demo_player (i : nat) (file : string) (n fade_in fade_out : Z) : OMXPlayer :=
  {| ident := i; filename := file; layer := n; loop := false;
     fadein := Some fade_in; fadeout := Some fade_out |}.

Definition demo_base : OMXPlayer :=
  {| ident := 0; filename := "media/0/idle.mp4"; layer := 0; loop := true;
     fadein := None; fadeout := None |}.

(** The manager while the level-2 file plays in the foreground. *)
Definition demo_playing_2 : PlayerManager :=
  {| files := demo_files; levels := demo_levels; base_player := Some demo_base;
     current_level := 2;
     current_player := Some (demo_player 1 "media/2/flame.mp4" 2 1 3) |}.

(** The manager with the base player alone. *)
Definition demo_idle : PlayerManager :=
  {| files := demo_files; levels := demo_levels; base_player := Some demo_base;
     current_level := 0; current_player := None |}.

Definition demo_world : World :=
  {| allocated := 2; history := []; done := false |}.

(** Every deferred fires. *)
Definition demo_env : Env :=
  {| draw := fun _ => 0%nat; outcome := fun _ => None |}.

(** Every spawn fails, everything else fires. *)
Definition demo_env_spawn_fails : Env :=
  {| draw := fun _ => 0%nat;
     outcome := fun d => if is_spawn d then Some (Failure "omxplayer did not start")
                         else None |}.

End Player.

(** ** Properties of the aggregated-derivative input *)

Module AgdSpec.
Import Agd.

(** *** Sanity checks on concrete inputs *)

Example pairs_from_four : _pairs_from [1; 3; 2; 5] = [(1, 3); (3, 2); (2, 5)].
Proof. reflexivity. Qed.

Example deque_append_evicts : deque_append (Some 3%nat) [1; 2; 3] 4 = [2; 3; 4].
Proof. reflexivity. Qed.

Example deque_append_zero : deque_append (Some 0%nat) [] 4 = [].
Proof. reflexivity. Qed.

Example setitem_negative : list_setitem [5; 10; 20] (-1) 7 = Some [5; 10; 7].
Proof. reflexivity. Qed.

Example setitem_out_of_range : list_setitem [5; 10; 20] 3 7 = None.
Proof. reflexivity. Qed.

(** *** The generator and the loop body against the specification's fold *)

Lemma pairs_loop_zip (rest : list Z) (one : Z) :
  _pairs_loop one rest = zip (one :: rest) rest.
Proof.
  revert one. induction rest as [|other rest IH]; intros one.
  - reflexivity.
  - cbn [_pairs_loop zip zip_with]. f_equal. apply IH.
Qed.

Lemma pairs_from_spec_pairs (buffer : list Z) :
  _pairs_from buffer = spec_pairs buffer.
Proof.
  destruct buffer as [|one rest]; [reflexivity|].
  unfold spec_pairs. cbn [_pairs_from tail]. apply pairs_loop_zip.
Qed.

Lemma derivative_step_spec_step (total : Z) (pair : Z * Z) :
  _derivative_step total pair = spec_step total pair.
Proof.
  destruct pair as [one next_one]. unfold _derivative_step, spec_step.
  cbn [fst snd]. repeat case_bool_decide; lia.
Qed.

Lemma fold_left_ext_step (pairs : list (Z * Z)) (total : Z) :
  fold_left _derivative_step pairs total = fold_left spec_step pairs total.
Proof.
  revert total. induction pairs as [|pair pairs IH]; intros total; [reflexivity|].
  cbn [fold_left]. rewrite derivative_step_spec_step. apply IH.
Qed.

Lemma aggregated_derivative_spec (self : AggregatedDerivative) :
  _aggregated_derivative self = spec_aggregate (_readings self).
Proof.
  unfold _aggregated_derivative, spec_aggregate.
  rewrite fold_left_ext_step, pairs_from_spec_pairs.
  case_bool_decide as Hlen; [|reflexivity].
  destruct (_readings self) as [|r0 [|r1 rest]]; [reflexivity|reflexivity|].
  cbn [length] in Hlen. lia.
Qed.

Lemma handle_new_reading_output (self : AggregatedDerivative) (reading : Z) :
  exists rest,
    (_handle_new_reading self reading).2 =
      agd_output reading (_aggregated_derivative (_track self reading)) :: rest.
Proof.
  unfold _handle_new_reading. case_bool_decide; eexists; reflexivity.
Qed.

(** C1. Whatever the state of the processor, the aggregated derivative it
    computes is the specification's fold over the consecutive pairs of the
    buffer (0 for fewer than two readings); this is the value sent with
    [agd_output] once a reading has been appended. Feeding 1, 3, 2, 5 to a
    processor with a buffer of 4 sends the values 0, 2, 0 and at last 3. *)
Theorem aggregated_derivative_is_spec_fold :
  forall (self : AggregatedDerivative) (reading : Z),
    _aggregated_derivative self = spec_aggregate (_readings self) /\
    (exists rest,
        (_handle_new_reading self reading).2 =
          agd_output reading (spec_aggregate (_readings (_track self reading))) :: rest) /\
    spec_aggregate [] = 0 /\
    spec_aggregate [reading] = 0 /\
    _readings (run (__init__ (Some 4%nat) [5; 10; 20] "adc")
                 (map new_reading [1; 3; 2; 5])).1 = [1; 3; 2; 5] /\
    agd_values (run (__init__ (Some 4%nat) [5; 10; 20] "adc")
                  (map new_reading [1; 3; 2; 5])).2 = [0; 2; 0; 3].
Proof.
  intros self reading. split; [apply aggregated_derivative_spec|].
  split.
  - destruct (handle_new_reading_output self reading) as [rest Hrest].
    exists rest. rewrite Hrest. by rewrite aggregated_derivative_spec.
  - repeat split; reflexivity.
Qed.

(** *** Monotone buffers *)

Lemma non_decreasing_tail (one : Z) (rest : list Z) :
  non_decreasing (one :: rest) -> non_decreasing rest.
Proof. intros Hmono i a b Ha Hb. exact (Hmono (S i) a b Ha Hb). Qed.

Lemma pairs_loop_monotone (rest : list Z) (one total : Z) :
  non_decreasing (one :: rest) ->
  fold_left _derivative_step (_pairs_loop one rest) total =
    total + (default one (last rest) - one).
Proof.
  revert one total. induction rest as [|other rest IH]; intros one total Hmono.
  - cbn. lia.
  - cbn [_pairs_loop fold_left].
    assert (one <= other) as Hle by exact (Hmono 0%nat one other eq_refl eq_refl).
    unfold _derivative_step at 2. rewrite bool_decide_true by lia.
    rewrite IH by exact (non_decreasing_tail _ _ Hmono).
    destruct rest as [|r rest']; [cbn; lia|].
    change (last (other :: r :: rest')) with (last (r :: rest')).
    destruct (last (r :: rest')) eqn:Hlast; [cbn; lia|].
    apply last_None in Hlast. discriminate.
Qed.

(** C2. When the readings of the buffer never decrease from one to the next,
    the aggregated derivative is the last reading minus the first. *)
Theorem monotone_buffer_total_increase :
  forall (self : AggregatedDerivative) (first final : Z),
    head (_readings self) = Some first ->
    last (_readings self) = Some final ->
    non_decreasing (_readings self) ->
    _aggregated_derivative self = final - first.
Proof.
  intros self first final Hhead Hlast Hmono. unfold _aggregated_derivative.
  destruct (_readings self) as [|one rest]; [discriminate|].
  cbn in Hhead. injection Hhead as ->.
  cbn [_pairs_from]. rewrite pairs_loop_monotone by exact Hmono.
  destruct rest as [|r rest'].
  - cbn in Hlast. injection Hlast as ->. cbn. lia.
  - change (last (first :: r :: rest')) with (last (r :: rest')) in Hlast.
    rewrite Hlast. cbn. lia.
Qed.

Lemma monotone_buffer_total_increase_witness :
  _aggregated_derivative
    (run (__init__ (Some 4%nat) [5; 10; 20] "adc") (map new_reading [1; 3; 3; 7])).1 = 7 - 1.
Proof.
  apply monotone_buffer_total_increase; [reflexivity|reflexivity|].
  intros i a b Ha Hb.
  destruct i as [|[|[|i]]]; vm_compute in Ha, Hb; simplify_eq; lia.
Defined.

(** *** The threshold scan *)

Lemma scan_fold_cases (agd : Z) (thresholds : list Z) (start play_level : Z) :
  (fold_left (_scan_step agd) (enumerate start thresholds) play_level = play_level /\
   forall (i : nat) (t : Z), thresholds !! i = Some t -> agd < t) \/
  (exists (i : nat) (t : Z),
      fold_left (_scan_step agd) (enumerate start thresholds) play_level
        = start + Z.of_nat i /\
      thresholds !! i = Some t /\ t <= agd /\
      forall (j : nat) (t' : Z), (i < j)%nat -> thresholds !! j = Some t' -> agd < t').
Proof.
  revert start play_level.
  induction thresholds as [|threshold thresholds IH]; intros start play_level.
  - left. split; [reflexivity|]. intros i t Hi. destruct i; discriminate.
  - cbn [enumerate fold_left].
    destruct (IH (start + 1) (_scan_step agd play_level (start, threshold)))
      as [[Hfold Hbelow]|(i & t & Hfold & Hi & Hmet & Habove)].
    + rewrite Hfold. unfold _scan_step. case_bool_decide as Hmet.
      * right. exists 0%nat, threshold. repeat split; [lia|lia|].
        intros [|j] t' Hj Hlook; [lia|]. exact (Hbelow j t' Hlook).
      * left. split; [reflexivity|].
        intros [|i] t Hi; cbn in Hi; [simplify_eq; lia|]. exact (Hbelow i t Hi).
    + right. exists (S i), t. rewrite Hfold. repeat split; [lia|exact Hi|exact Hmet|].
      intros [|j] t' Hj Hlook; [lia|]. apply (Habove j t'); [lia|exact Hlook].
Qed.

(** C3. The level selected for an aggregated value is 0 when the value is
    below every threshold, and otherwise the largest level (counted from 1,
    in table order) whose threshold the value meets. For the thresholds
    5, 10, 20 and the value 12 it is level 2. *)
Theorem scan_selects_last_met_threshold :
  forall (agd : Z) (thresholds : list Z),
    ((forall (i : nat) (t : Z), thresholds !! i = Some t -> agd < t) ->
     _scan_thresholds agd thresholds = 0) /\
    ((exists (i : nat) (t : Z), thresholds !! i = Some t /\ agd >= t) ->
     exists (i : nat) (t : Z),
       _scan_thresholds agd thresholds = Z.of_nat i + 1 /\
       thresholds !! i = Some t /\ agd >= t /\
       forall (j : nat) (t' : Z),
         (i < j)%nat -> thresholds !! j = Some t' -> agd < t') /\
    _scan_thresholds 12 [5; 10; 20] = 2.
Proof.
  intros agd thresholds. unfold _scan_thresholds.
  destruct (scan_fold_cases agd thresholds 1 0)
    as [[Hfold Hbelow]|(i & t & Hfold & Hi & Hmet & Habove)].
  - split; [intros _; exact Hfold|]. split; [|reflexivity].
    intros (i & t & Hi & Hmet). specialize (Hbelow i t Hi). lia.
  - split; [|split; [|reflexivity]].
    + intros Hbelow. specialize (Hbelow i t Hi). lia.
    + intros _. exists i, t. rewrite Hfold. repeat split; [lia|exact Hi|lia|exact Habove].
Qed.

Lemma scan_selects_last_met_threshold_witness :
  _scan_thresholds 3 [5; 10; 20] = 0 /\
  exists (i : nat) (t : Z),
    _scan_thresholds 25 [5; 30; 20] = Z.of_nat i + 1 /\
    [5; 30; 20] !! i = Some t /\ 25 >= t /\
    forall (j : nat) (t' : Z),
      (i < j)%nat -> [5; 30; 20] !! j = Some t' -> 25 < t'.
Proof.
  split.
  - apply (proj1 (scan_selects_last_met_threshold 3 [5; 10; 20])).
    intros i t Hi. destruct i as [|[|[|i]]]; cbn in Hi; simplify_eq; lia.
  - apply (proj1 (proj2 (scan_selects_last_met_threshold 25 [5; 30; 20]))).
    exists 0%nat, 5. split; [reflexivity|lia].
Defined.

(** *** Setting a threshold *)

Lemma set_threshold_in_range (self : AggregatedDerivative) (level value : Z) :
  1 <= level <= Z.of_nat (length (_thresholds self)) ->
  _set_threshold self level value =
    (with_thresholds self (<[Z.to_nat (level - 1) := value]> (_thresholds self)),
     [notify_agd_threshold level value]).
Proof.
  intros Hlevel. unfold _set_threshold, list_setitem. cbn zeta.
  rewrite (bool_decide_false (level - 1 < 0)) by lia.
  rewrite bool_decide_true by lia. reflexivity.
Qed.

Lemma set_threshold_above (self : AggregatedDerivative) (level value : Z) :
  Z.of_nat (length (_thresholds self)) < level ->
  _set_threshold self level value = (self, []).
Proof.
  intros Hlevel. unfold _set_threshold, list_setitem. cbn zeta.
  rewrite (bool_decide_false (level - 1 < 0)) by lia.
  rewrite bool_decide_false by lia. reflexivity.
Qed.

Lemma set_threshold_far_below (self : AggregatedDerivative) (level value : Z) :
  level <= - Z.of_nat (length (_thresholds self)) ->
  _set_threshold self level value = (self, []).
Proof.
  intros Hlevel. unfold _set_threshold, list_setitem. cbn zeta.
  rewrite (bool_decide_true (level - 1 < 0)) by lia.
  rewrite bool_decide_false by lia. reflexivity.
Qed.

(** A level from [1 - N] to 0 is not rejected: the index [level - 1] is
    negative and counts from the end of the table. *)
Lemma set_threshold_wraps (self : AggregatedDerivative) (level value : Z) :
  - Z.of_nat (length (_thresholds self)) < level <= 0 ->
  _set_threshold self level value =
    (with_thresholds self
       (<[Z.to_nat (level - 1 + Z.of_nat (length (_thresholds self))) := value]>
          (_thresholds self)),
     [notify_agd_threshold level value]).
Proof.
  intros Hlevel. unfold _set_threshold, list_setitem. cbn zeta.
  rewrite (bool_decide_true (level - 1 < 0)) by lia.
  rewrite bool_decide_true by lia. reflexivity.
Qed.

(** C4, at level 0 on a table of three thresholds: 0 is outside 1..3, yet the
    last entry is overwritten and one notification is sent. *)
Theorem set_threshold_level_zero_overwrites_last :
  _set_threshold (__init__ (Some 4%nat) [5; 10; 20] "adc") 0 99 =
    (__init__ (Some 4%nat) [5; 10; 99] "adc", [notify_agd_threshold 0 99]).
Proof. reflexivity. Qed.

(** *** Edge-triggered level changes *)

Lemma play_levels_app (out1 out2 : list Signal) :
  play_levels (out1 ++ out2) = play_levels out1 ++ play_levels out2.
Proof. unfold play_levels. apply omap_app. Qed.

Lemma play_levels_notify (self : AggregatedDerivative) :
  play_levels (_notify_agd_thresholds self) = [].
Proof.
  unfold _notify_agd_thresholds. generalize 1.
  induction (_thresholds self) as [|t ts IH]; intros start; [reflexivity|].
  cbn [enumerate map]. cbn. apply IH.
Qed.

(** What one handler call does to [_last_play_level]: it ends as the level of
    the last [change_play_level] the call sent, or as it was when the call
    sent none. *)
Lemma handle_last_play_level (self : AggregatedDerivative) (i : Input) :
  _last_play_level (handle self i).1 =
    default (_last_play_level self) (last (play_levels (handle self i).2)).
Proof.
  destruct i as [reading| |level value]; cbn [handle].
  - unfold _handle_new_reading. case_bool_decide; reflexivity.
  - cbn [fst snd]. rewrite play_levels_notify. reflexivity.
  - unfold _set_threshold.
    destruct (list_setitem (_thresholds self) (level - 1) value); reflexivity.
Qed.

Lemma run_last_play_level (inputs : list Input) (self : AggregatedDerivative) :
  _last_play_level (run self inputs).1 =
    default (_last_play_level self) (last (play_levels (run self inputs).2)).
Proof.
  revert self. induction inputs as [|i inputs IH]; intros self; [reflexivity|].
  cbn [run]. pose proof (handle_last_play_level self i) as Hstep.
  destruct (handle self i) as [self1 out1]. specialize (IH self1).
  destruct (run self1 inputs) as [self2 out2]. cbn [fst snd] in *.
  rewrite IH, Hstep, play_levels_app.
  destruct (play_levels out2) as [|l ls] using rev_ind.
  - rewrite app_nil_r. reflexivity.
  - rewrite app_assoc, !last_snoc. reflexivity.
Qed.

(** C5. After any sequence of inputs to a fresh processor, a reading sends
    [change_play_level] exactly when the level selected for it differs from
    the level of the last [change_play_level] sent before (level 0 when none
    was sent yet), and then sends it once, with the selected level; a reading
    that selects the same level again sends none. *)
Theorem play_level_change_is_edge_triggered :
  forall (buffer_size : option nat) (thresholds : list Z) (source : string)
         (inputs : list Input) (reading : Z),
    let before := run (__init__ buffer_size thresholds source) inputs in
    let self := before.1 in
    let previous := default 0 (last (play_levels before.2)) in
    let selected :=
      _scan_thresholds (_aggregated_derivative (_track self reading)) (_thresholds self) in
    play_levels (_handle_new_reading self reading).2 =
      (if bool_decide (selected = previous) then [] else [selected]) /\
    _last_play_level (_handle_new_reading self reading).1 = selected.
Proof.
  intros buffer_size thresholds source inputs reading before self previous selected.
  assert (_last_play_level self = previous) as Hprev.
  { unfold self, previous, before. rewrite run_last_play_level. reflexivity. }
  unfold _handle_new_reading. fold selected. cbn [_track _last_play_level _thresholds].
  fold selected. rewrite Hprev.
  destruct (decide (selected = previous)) as [Heq|Hne].
  - rewrite (bool_decide_false (selected <> previous)) by tauto.
    rewrite (bool_decide_true (selected = previous)) by exact Heq.
    cbn. split; [reflexivity|]. congruence.
  - rewrite (bool_decide_true (selected <> previous)) by exact Hne.
    rewrite (bool_decide_false (selected = previous)) by exact Hne.
    split; reflexivity.
Qed.

End AgdSpec.

(** ** Properties of the player manager *)

Module PlayerSpec.
Import Player.

(** Running [t] and then [f] is running [t], then [f] on its value; a raise
    in [t] ends the run. *)
Lemma run_bind {A B : Type} (env : Env) (t : Task A) (f : A -> Task B)
      (w : World) (self : PlayerManager) :
  run env (bind t f) w self =
    match run env t w self with
    | (w', self', inr a) => run env (f a) w' self'
    | (w', self', inl e) => (w', self', inl e)
    end.
Proof.
  revert w self.
  induction t as [a|e|k IH|self0 k IH|population k IH|init k IH|d k IH|k IH];
    intros w self; cbn [bind run]; try reflexivity; try apply IH.
  - destruct (outcome env d); [reflexivity|apply IH].
  - destruct (done w); [reflexivity|apply IH].
Qed.

Lemma issued_refl (w : World) : issued w w = [].
Proof. unfold issued. apply drop_all. Qed.

Lemma issued_one (w : World) (d : Deferred) (self : PlayerManager) :
  issued w (record d self (alloc w)) = [(d, self)].
Proof. unfold issued. cbn. apply drop_app_length. Qed.

Lemma issued_two (w : World) (d1 d2 : Deferred) (self1 self2 : PlayerManager) :
  issued w (record d2 self2 (record d1 self1 (alloc w))) = [(d1, self1); (d2, self2)].
Proof. unfold issued. cbn. rewrite <- app_assoc. apply drop_app_length. Qed.

Lemma new_player_of_playable (env : Env) (w : World) (self : PlayerManager) (n : Z) :
  playable self n <-> is_Some (new_player_of env w self n).
Proof.
  unfold playable, new_player_of. split.
  - intros [(file & pool & Hfiles) [info Hinfo]]. rewrite Hfiles, Hinfo. cbn. eauto.
  - intros [p Hp]. destruct (files self !! n) as [[|file pool]|]; cbn in Hp;
      destruct (levels self !! pretty n); cbn in Hp; try discriminate.
    split; eauto.
Qed.

(** A request below the current level returns at once. *)
Lemma level_run_below (env : Env) (w : World) (self : PlayerManager) (n : Z) :
  n < current_level self -> run env (level n) w self = (w, self, inr tt).
Proof. intros Hlt. unfold level. cbn. rewrite bool_decide_true by exact Hlt. reflexivity. Qed.

(** A request that passes the guard and whose lookups succeed: the new player
    is built and its spawn waited on; a failed spawn ends the call; after a
    spawn that fired, the current player, when there is one, is stopped, and a
    failed stop ends the call; the two fields are written last. *)
Lemma level_run_spawned (env : Env) (w : World) (self : PlayerManager) (n : Z)
      (p : OMXPlayer) :
  ~ n < current_level self ->
  new_player_of env w self n = Some p ->
  run env (level n) w self =
    let w1 := record (spawn p (Some n)) self (alloc w) in
    match outcome env (spawn p (Some n)) with
    | Some e => (w1, self, inl e)
    | None =>
        match current_player self with
        | None => (w1, set_current_player (Some p) (set_current_level n self), inr tt)
        | Some old =>
            let w2 := record (stop_player old) self w1 in
            match outcome env (stop_player old) with
            | Some e => (w2, self, inl e)
            | None => (w2, set_current_player (Some p) (set_current_level n self), inr tt)
            end
        end
    end.
Proof.
  intros Hge Hnew. unfold level. cbn. rewrite bool_decide_false by exact Hge.
  unfold new_player_of in Hnew. unfold getitem, mbind, task_bind. cbn.
  destruct (files self !! n) as [[|file pool]|]; cbn in Hnew; try discriminate.
  - destruct (levels self !! pretty n); discriminate.
  - destruct (levels self !! pretty n) as [info|]; cbn in Hnew; [|discriminate].
    injection Hnew as <-. cbn.
    destruct (outcome env (spawn _ (Some n))); [reflexivity|].
    destruct (current_player self) as [old|]; cbn; [|reflexivity].
    destruct (outcome env (stop_player old)); reflexivity.
Qed.

(** A request that passes the guard and whose lookups fail raises before any
    player is built. *)
Lemma level_run_unplayable (env : Env) (w : World) (self : PlayerManager) (n : Z) :
  ~ n < current_level self ->
  new_player_of env w self n = None ->
  exists e, run env (level n) w self = (w, self, inl e).
Proof.
  intros Hge Hnew. unfold level. cbn. rewrite bool_decide_false by exact Hge.
  unfold new_player_of in Hnew. unfold getitem, mbind, task_bind. cbn.
  destruct (files self !! n) as [[|file pool]|]; cbn in Hnew |- *.
  - eexists; reflexivity.
  - destruct (levels self !! pretty n); [discriminate|]. cbn. eexists; reflexivity.
  - eexists; reflexivity.
Qed.

Example demo_start :
  run demo_env start {| allocated := 0; history := []; done := false |}
      (set_base_player None demo_idle) =
    ({| allocated := 1;
        history := [(connect_to_dbus, set_base_player None demo_idle);
                    (spawn demo_base None, demo_idle)];
        done := false |},
     demo_idle, inr tt).
Proof. vm_compute. reflexivity. Qed.

Example demo_stop :
  run demo_env stop demo_world demo_playing_2 =
    ({| allocated := 2;
        history := [(stop_player (demo_player 1 "media/2/flame.mp4" 2 1 3), demo_playing_2);
                    (stop_player demo_base, demo_playing_2)];
        done := true |},
     demo_playing_2, inr tt).
Proof. vm_compute. reflexivity. Qed.

Example demo_stop_twice :
  (run demo_env stop (run demo_env stop demo_world demo_playing_2).1.1 demo_playing_2).2
    = inl (Failure "AlreadyCalledError").
Proof. vm_compute. reflexivity. Qed.

Example demo_level_3 :
  run demo_env (level 3) demo_world demo_playing_2 =
    ({| allocated := 3;
        history := [(spawn (demo_player 2 "media/3/blaze.mp4" 3 2 4) (Some 3), demo_playing_2);
                    (stop_player (demo_player 1 "media/2/flame.mp4" 2 1 3), demo_playing_2)];
        done := false |},
     set_current_player (Some (demo_player 2 "media/3/blaze.mp4" 3 2 4))
       (set_current_level 3 demo_playing_2),
     inr tt).
Proof. vm_compute. reflexivity. Qed.

Example demo_level_1 :
  run demo_env (level 1) demo_world demo_playing_2 = (demo_world, demo_playing_2, inr tt).
Proof. vm_compute. reflexivity. Qed.

Example demo_level_unknown :
  run demo_env (level 7) demo_world demo_playing_2 =
    (demo_world, demo_playing_2, inl (KeyError "7")).
Proof. vm_compute. reflexivity. Qed.

(** A request that passed the guard and returned: what it waited on, in
    order, and what it left in the two fields it writes. *)
Lemma level_run_returned (env : Env) (w : World) (self : PlayerManager) (n : Z) :
  ~ n < current_level self ->
  (run env (level n) w self).2 = inr tt ->
  exists new_player,
    new_player_of env w self n = Some new_player /\
    outcome env (spawn new_player (Some n)) = None /\
    match current_player self with
    | Some old => outcome env (stop_player old) = None
    | None => True
    end /\
    issued w (run env (level n) w self).1.1 =
      (spawn new_player (Some n), self) ::
      match current_player self with
      | Some old => [(stop_player old, self)]
      | None => []
      end /\
    (run env (level n) w self).1.2 =
      set_current_player (Some new_player) (set_current_level n self) /\
    current_level (run env (level n) w self).1.2 = n /\
    current_player (run env (level n) w self).1.2 = Some new_player.
Proof.
  intros Hge. destruct (new_player_of env w self n) as [p|] eqn:Hnew.
  - rewrite (level_run_spawned env w self n p Hge Hnew). cbn zeta.
    destruct (outcome env (spawn p (Some n))) as [e|] eqn:Hspawn; cbn [fst snd];
      [discriminate|].
    destruct (current_player self) as [old|]; cbn [fst snd].
    + destruct (outcome env (stop_player old)) as [e|] eqn:Hstop; cbn [fst snd];
        [discriminate|].
      intros _. exists p. rewrite issued_two. repeat split; assumption.
    + intros _. exists p. rewrite issued_one. repeat split; assumption.
  - destruct (level_run_unplayable env w self n Hge Hnew) as [e ->]. discriminate.
Qed.

Lemma level_run_issues_spawn (env : Env) (w : World) (self : PlayerManager) (n : Z)
      (p : OMXPlayer) :
  ~ n < current_level self ->
  new_player_of env w self n = Some p ->
  exists rest, issued w (run env (level n) w self).1.1 = (spawn p (Some n), self) :: rest.
Proof.
  intros Hge Hnew. rewrite (level_run_spawned env w self n p Hge Hnew). cbn zeta.
  destruct (outcome env (spawn p (Some n))); cbn [fst snd];
    [rewrite issued_one; eauto|].
  destruct (current_player self) as [old|]; cbn [fst snd]; [|rewrite issued_one; eauto].
  destruct (outcome env (stop_player old)); cbn [fst snd]; rewrite issued_two; eauto.
Qed.

(** C6. A request for a level below the current one does nothing: the
    manager's fields are as they were, no object is built and no deferred is
    waited on, so no player is spawned or stopped. *)
Theorem level_below_current_is_noop :
  forall (env : Env) (w : World) (self : PlayerManager) (n : Z),
    n < current_level self ->
    run env (level n) w self = (w, self, inr tt) /\
    issued w (run env (level n) w self).1.1 = [] /\
    current_level (run env (level n) w self).1.2 = current_level self /\
    current_player (run env (level n) w self).1.2 = current_player self.
Proof.
  intros env w self n Hlt. rewrite level_run_below by exact Hlt. cbn [fst snd].
  rewrite issued_refl. repeat split.
Qed.

Lemma level_below_current_is_noop_witness :
  run demo_env (level 1) demo_world demo_playing_2 = (demo_world, demo_playing_2, inr tt) /\
  issued demo_world (run demo_env (level 1) demo_world demo_playing_2).1.1 = [] /\
  current_level (run demo_env (level 1) demo_world demo_playing_2).1.2 = 2 /\
  current_player (run demo_env (level 1) demo_world demo_playing_2).1.2 =
    Some (demo_player 1 "media/2/flame.mp4" 2 1 3).
Proof.
  apply (level_below_current_is_noop demo_env demo_world demo_playing_2 1).
  cbn. lia.
Defined.

(** C7 as stated fails when the requested level is the current one: the guard
    only lets a lower level return early, so a request for level 2 while
    level 2 plays spawns a second level-2 player, stops the first and takes
    the new one as the current player. *)
Lemma level_at_current_level_spawns :
  current_level demo_playing_2 = 2 /\
  run demo_env (level 2) demo_world demo_playing_2 =
    ({| allocated := 3;
        history := [(spawn (demo_player 2 "media/2/flame.mp4" 2 1 3) (Some 2), demo_playing_2);
                    (stop_player (demo_player 1 "media/2/flame.mp4" 2 1 3), demo_playing_2)];
        done := false |},
     set_current_player (Some (demo_player 2 "media/2/flame.mp4" 2 1 3)) demo_playing_2,
     inr tt).
Proof. split; vm_compute; reflexivity. Qed.

(** C7, amended. A request spawns a new foreground player exactly when the
    requested level is not below the current one and has a file and settings
    to play from; in particular a request for the current level spawns a new
    player too, and when the call returns the previous player, when there
    was one, has been stopped after that spawn, the new player is the current
    one and the current level is the requested one. *)
Theorem level_spawns_iff_not_below :
  forall (env : Env) (w : World) (self : PlayerManager) (n : Z),
    ((exists p rest, issued w (run env (level n) w self).1.1 = (spawn p (Some n), self) :: rest)
     <-> current_level self <= n /\ playable self n) /\
    (n = current_level self -> playable self n ->
     exists p,
       new_player_of env w self n = Some p /\
       (exists rest,
           issued w (run env (level n) w self).1.1 = (spawn p (Some n), self) :: rest) /\
       ((run env (level n) w self).2 = inr tt ->
        outcome env (spawn p (Some n)) = None /\
        match current_player self with
        | Some old => outcome env (stop_player old) = None
        | None => True
        end /\
        issued w (run env (level n) w self).1.1 =
          (spawn p (Some n), self) ::
          match current_player self with
          | Some old => [(stop_player old, self)]
          | None => []
          end /\
        (run env (level n) w self).1.2 =
          set_current_player (Some p) (set_current_level n self) /\
        current_level (run env (level n) w self).1.2 = n /\
        current_player (run env (level n) w self).1.2 = Some p)).
Proof.
  intros env w self n. split.
  - destruct (decide (n < current_level self)) as [Hlt|Hge].
    { rewrite level_run_below by exact Hlt. cbn [fst snd]. rewrite issued_refl.
      split; [intros (p & rest & Hnil); discriminate|lia]. }
    pose proof (new_player_of_playable env w self n) as Hplayable.
    destruct (new_player_of env w self n) as [p|] eqn:Hnew.
    + split; [intros _; split; [lia|apply Hplayable; eauto]|].
      intros _. exists p. exact (level_run_issues_spawn env w self n p Hge Hnew).
    + destruct (level_run_unplayable env w self n Hge Hnew) as [e ->]. cbn [fst snd].
      rewrite issued_refl. split; [intros (p & rest & Hnil); discriminate|].
      intros [_ Hok]. apply Hplayable in Hok. destruct Hok; discriminate.
  - intros Heq Hok.
    assert (~ n < current_level self) as Hge by lia.
    apply (new_player_of_playable env w self n) in Hok as [p Hnew].
    exists p. split; [exact Hnew|].
    split; [exact (level_run_issues_spawn env w self n p Hge Hnew)|].
    intros Hret.
    destruct (level_run_returned env w self n Hge Hret)
      as (p' & Hnew' & Hspawn & Hstop & Hissued & Hself & Hlevel & Hplayer).
    rewrite Hnew in Hnew'. injection Hnew' as <-.
    repeat split; assumption.
Qed.

Lemma level_spawns_iff_not_below_witness :
  exists p,
    new_player_of demo_env demo_world demo_playing_2 2 = Some p /\
    (exists rest,
        issued demo_world (run demo_env (level 2) demo_world demo_playing_2).1.1 =
          (spawn p (Some 2), demo_playing_2) :: rest) /\
    ((run demo_env (level 2) demo_world demo_playing_2).2 = inr tt ->
     outcome demo_env (spawn p (Some 2)) = None /\
     match current_player demo_playing_2 with
     | Some old => outcome demo_env (stop_player old) = None
     | None => True
     end /\
     issued demo_world (run demo_env (level 2) demo_world demo_playing_2).1.1 =
       (spawn p (Some 2), demo_playing_2) ::
       match current_player demo_playing_2 with
       | Some old => [(stop_player old, demo_playing_2)]
       | None => []
       end /\
     (run demo_env (level 2) demo_world demo_playing_2).1.2 =
       set_current_player (Some p) (set_current_level 2 demo_playing_2) /\
     current_level (run demo_env (level 2) demo_world demo_playing_2).1.2 = 2 /\
     current_player (run demo_env (level 2) demo_world demo_playing_2).1.2 = Some p).
Proof.
  apply (proj2 (level_spawns_iff_not_below demo_env demo_world demo_playing_2 2)).
  - reflexivity.
  - split; [exists "media/2/flame.mp4", []; reflexivity|].
    eexists. vm_compute. reflexivity.
Defined.

(** C8. In a request that goes through, the spawn of the new player is
    waited on first and has fired, the stop of the previous player (when
    there is one) comes next, and [current_level] and [current_player] are
    written after both: at either wait the manager still has its old fields,
    and at the return [current_level] is the requested level and
    [current_player] is the new player. In any request, a stop is only ever
    waited on after a spawn that fired. *)
Theorem level_spawns_before_stop_before_commit :
  forall (env : Env) (w : World) (self : PlayerManager) (n : Z),
    (current_level self <= n ->
     (run env (level n) w self).2 = inr tt ->
     exists new_player,
       new_player_of env w self n = Some new_player /\
       outcome env (spawn new_player (Some n)) = None /\
       match current_player self with
       | Some old => outcome env (stop_player old) = None
       | None => True
       end /\
       issued w (run env (level n) w self).1.1 =
         (spawn new_player (Some n), self) ::
         match current_player self with
         | Some old => [(stop_player old, self)]
         | None => []
         end /\
       (run env (level n) w self).1.2 =
         set_current_player (Some new_player) (set_current_level n self) /\
       current_level (run env (level n) w self).1.2 = n /\
       current_player (run env (level n) w self).1.2 = Some new_player) /\
    (forall (old : OMXPlayer) (snapshot : PlayerManager),
       (stop_player old, snapshot) ∈ issued w (run env (level n) w self).1.1 ->
       exists new_player,
         outcome env (spawn new_player (Some n)) = None /\
         current_player self = Some old /\
         issued w (run env (level n) w self).1.1 =
           [(spawn new_player (Some n), self); (stop_player old, self)]).
Proof.
  intros env w self n. split.
  { intros Hge Hret. apply level_run_returned; [lia|exact Hret]. }
  destruct (decide (n < current_level self)) as [Hlt|Hge].
  { rewrite level_run_below by exact Hlt. cbn [fst snd]. rewrite issued_refl.
    intros old snapshot Hin. by apply elem_of_nil in Hin. }
  destruct (new_player_of env w self n) as [p|] eqn:Hnew.
  - rewrite (level_run_spawned env w self n p Hge Hnew). cbn zeta.
    destruct (outcome env (spawn p (Some n))) as [e|] eqn:Hspawn; cbn [fst snd].
    { rewrite issued_one.
      intros old snapshot Hin. apply list_elem_of_singleton in Hin. discriminate. }
    destruct (current_player self) as [old|]; cbn [fst snd].
    + destruct (outcome env (stop_player old)) as [e|]; cbn [fst snd];
        rewrite issued_two;
        intros old' snapshot Hin;
        (apply elem_of_cons in Hin as [Hin|Hin]; [discriminate|]);
        apply list_elem_of_singleton in Hin; injection Hin as -> ->; eauto.
    + rewrite issued_one.
      intros old snapshot Hin. apply list_elem_of_singleton in Hin. discriminate.
  - destruct (level_run_unplayable env w self n Hge Hnew) as [e ->]. cbn [fst snd].
    rewrite issued_refl. intros old snapshot Hin. by apply elem_of_nil in Hin.
Qed.

Lemma level_spawns_before_stop_before_commit_witness :
  exists new_player,
    new_player_of demo_env demo_world demo_playing_2 3 = Some new_player /\
    outcome demo_env (spawn new_player (Some 3)) = None /\
    match current_player demo_playing_2 with
    | Some old => outcome demo_env (stop_player old) = None
    | None => True
    end /\
    issued demo_world (run demo_env (level 3) demo_world demo_playing_2).1.1 =
      (spawn new_player (Some 3), demo_playing_2) ::
      match current_player demo_playing_2 with
      | Some old => [(stop_player old, demo_playing_2)]
      | None => []
      end /\
    (run demo_env (level 3) demo_world demo_playing_2).1.2 =
      set_current_player (Some new_player) (set_current_level 3 demo_playing_2) /\
    current_level (run demo_env (level 3) demo_world demo_playing_2).1.2 = 3 /\
    current_player (run demo_env (level 3) demo_world demo_playing_2).1.2 = Some new_player.
Proof.
  apply (proj1 (level_spawns_before_stop_before_commit
                  demo_env demo_world demo_playing_2 3)).
  - cbn. lia.
  - vm_compute. reflexivity.
Defined.

(** C9. When the spawn of the new player fails, the call ends there with the
    failure: the manager keeps all its fields, [current_level] and
    [current_player] among them, and the spawn is the only deferred waited
    on, so the previous player is not stopped. *)
Theorem failed_spawn_leaves_manager_unchanged :
  forall (env : Env) (w : World) (self : PlayerManager) (n : Z)
         (new_player : OMXPlayer) (e : Exn),
    current_level self <= n ->
    new_player_of env w self n = Some new_player ->
    outcome env (spawn new_player (Some n)) = Some e ->
    run env (level n) w self =
      (record (spawn new_player (Some n)) self (alloc w), self, inl e) /\
    issued w (run env (level n) w self).1.1 = [(spawn new_player (Some n), self)].
Proof.
  intros env w self n new_player e Hge Hnew Hfail.
  rewrite (level_run_spawned env w self n new_player) by (lia || exact Hnew).
  cbn zeta. rewrite Hfail. cbn [fst snd]. rewrite issued_one. split; reflexivity.
Qed.

Lemma failed_spawn_leaves_manager_unchanged_witness :
  run demo_env_spawn_fails (level 3) demo_world demo_playing_2 =
    (record (spawn (demo_player 2 "media/3/blaze.mp4" 3 2 4) (Some 3)) demo_playing_2
       (alloc demo_world),
     demo_playing_2, inl (Failure "omxplayer did not start")) /\
  issued demo_world (run demo_env_spawn_fails (level 3) demo_world demo_playing_2).1.1 =
    [(spawn (demo_player 2 "media/3/blaze.mp4" 3 2 4) (Some 3), demo_playing_2)].
Proof.
  apply (failed_spawn_leaves_manager_unchanged
           demo_env_spawn_fails demo_world demo_playing_2 3).
  - cbn. lia.
  - vm_compute. reflexivity.
  - reflexivity.
Defined.

(** C10. Whatever level it is called with, [_player_ended] sets
    [current_level] to 0 and [current_player] to [None], whatever they were,
    and touches nothing else. *)
Theorem player_ended_resets_to_idle :
  forall (env : Env) (w : World) (self : PlayerManager) (n : Z),
    run env (_player_ended n) w self =
      (w, set_current_player None (set_current_level 0 self), inr tt) /\
    current_level (run env (_player_ended n) w self).1.2 = 0 /\
    current_player (run env (_player_ended n) w self).1.2 = None /\
    files (run env (_player_ended n) w self).1.2 = files self /\
    levels (run env (_player_ended n) w self).1.2 = levels self /\
    base_player (run env (_player_ended n) w self).1.2 = base_player self.
Proof. intros env w self n. repeat split. Qed.

Example demo_player_ended_other_level :
  run demo_env (_player_ended 1) demo_world demo_playing_2 = (demo_world, demo_idle, inr tt).
Proof. reflexivity. Qed.

End PlayerSpec.

(** ** Further properties of the aggregated-derivative input *)

Module AgdMore.
Import Agd.

(** *** The pairs generator *)

Lemma pairs_loop_length (rest : list Z) (one : Z) :
  length (_pairs_loop one rest) = length rest.
Proof.
  revert one. induction rest as [|other rest IH]; intros one; [reflexivity|].
  cbn [_pairs_loop length]. f_equal. apply IH.
Qed.

Lemma pairs_loop_lookup (rest : list Z) (one : Z) (i : nat) (a b : Z) :
  _pairs_loop one rest !! i = Some (a, b) <->
  (one :: rest) !! i = Some a /\ rest !! i = Some b.
Proof.
  revert one i. induction rest as [|other rest IH]; intros one i.
  - cbn [_pairs_loop]. split; [intros H; destruct i; discriminate|].
    intros [_ H]. destruct i; discriminate.
  - cbn [_pairs_loop]. destruct i as [|i].
    + cbn. split; [intros H; by simplify_eq|]. intros [H1 H2]. by simplify_eq.
    + cbn [lookup list_lookup]. apply IH.
Qed.

(** X1. The generator delivers one pair for each position of the iterable that
    has a successor, in order: the pair at position [i] is made of the items
    at positions [i] and [i + 1]; an iterable of fewer than two items
    delivers nothing. *)
Theorem pairs_from_are_adjacent_items :
  forall (iterable : list Z),
    length (_pairs_from iterable) = (length iterable - 1)%nat /\
    forall (i : nat) (a b : Z),
      _pairs_from iterable !! i = Some (a, b) <->
      iterable !! i = Some a /\ iterable !! S i = Some b.
Proof.
  intros [|one rest].
  - split; [reflexivity|]. intros i a b. cbn. split; [discriminate|]. intros [H _]. discriminate.
  - cbn [_pairs_from]. split.
    + rewrite pairs_loop_length. cbn [length]. lia.
    + intros i a b. change ((one :: rest) !! S i) with (rest !! i).
      apply pairs_loop_lookup.
Qed.

(** *** The aggregated derivative *)

Lemma derivative_fold_nonneg (pairs : list (Z * Z)) (total : Z) :
  0 <= total -> 0 <= fold_left _derivative_step pairs total.
Proof.
  revert total. induction pairs as [|[one next_one] pairs IH]; intros total Htotal;
    [exact Htotal|].
  cbn [fold_left]. apply IH. unfold _derivative_step. case_bool_decide; lia.
Qed.

Lemma pairs_loop_app (l rest : list Z) (one x : Z) :
  _pairs_loop one (l ++ x :: rest) = _pairs_loop one (l ++ [x]) ++ _pairs_loop x rest.
Proof.
  revert one. induction l as [|y l IH]; intros one; [reflexivity|].
  cbn [app _pairs_loop]. f_equal. apply IH.
Qed.

Lemma pairs_from_app (l rest : list Z) (x : Z) :
  _pairs_from (l ++ x :: rest) = _pairs_from (l ++ [x]) ++ _pairs_loop x rest.
Proof.
  destruct l as [|one l]; [reflexivity|]. cbn [app _pairs_from]. apply pairs_loop_app.
Qed.

(** X2. The aggregated derivative is never negative, whatever the readings in
    the buffer are (negative ones included). *)
Theorem aggregated_derivative_nonneg :
  forall (self : AggregatedDerivative), 0 <= _aggregated_derivative self.
Proof. intros self. apply derivative_fold_nonneg. lia. Qed.

(** X3. Only the readings after the last decrease count: when the buffer ends in
    a reading [b] lower than the one before it, followed by readings that
    never decrease, the aggregated derivative is the newest reading minus
    [b], whatever came before. *)
Theorem aggregated_derivative_after_last_drop :
  forall (self : AggregatedDerivative) (before after : list Z) (a b : Z),
    _readings self = before ++ a :: b :: after ->
    b < a ->
    non_decreasing (b :: after) ->
    _aggregated_derivative self = default b (last after) - b.
Proof.
  intros self before after a b Hbuf Hdrop Hmono. unfold _aggregated_derivative.
  rewrite Hbuf, pairs_from_app. cbn [_pairs_loop].
  rewrite fold_left_app. cbn [fold_left].
  unfold _derivative_step at 2. rewrite bool_decide_false by lia.
  rewrite AgdSpec.pairs_loop_monotone by exact Hmono. lia.
Qed.

Lemma aggregated_derivative_after_last_drop_witness :
  _aggregated_derivative
    (run (__init__ (Some 5%nat) [5; 10; 20] "adc") (map new_reading [1; 9; 4; 4; 6])).1
  = default 4 (last [4; 6]) - 4.
Proof.
  apply (aggregated_derivative_after_last_drop _ [1] [4; 6] 9 4); [reflexivity|lia|].
  intros i x y Hx Hy. destruct i as [|[|i]]; cbn in Hx, Hy; simplify_eq; lia.
Defined.

Lemma derivative_zero_after_drop (before : list Z) (a b : Z) :
  b < a -> fold_left _derivative_step (_pairs_from (before ++ [a; b])) 0 = 0.
Proof.
  intros Hdrop. rewrite pairs_from_app. cbn [_pairs_loop].
  rewrite fold_left_app. cbn [fold_left].
  unfold _derivative_step at 1. rewrite bool_decide_false by lia. reflexivity.
Qed.

(** X4. A reading lower than the newest one in the buffer brings the aggregated
    derivative to 0 at once: the [agd_output] sent for it carries 0, whatever
    the buffer held and whatever its size. *)
Theorem reading_below_newest_outputs_zero :
  forall (self : AggregatedDerivative) (reading newest_reading : Z),
    last (_readings self) = Some newest_reading ->
    reading < newest_reading ->
    exists rest, (_handle_new_reading self reading).2 = agd_output reading 0 :: rest.
Proof.
  intros self reading newest_reading Hlast Hdrop.
  destruct (AgdSpec.handle_new_reading_output self reading) as [rest Hout].
  exists rest. rewrite Hout. f_equal. f_equal.
  unfold _aggregated_derivative. cbn [_track _readings].
  apply last_Some in Hlast as [older Hbuf]. rewrite Hbuf.
  unfold deque_append. cbn zeta. rewrite <- app_assoc. cbn [app].
  assert (fold_left _derivative_step (_pairs_from (tail (older ++ [newest_reading; reading]))) 0 = 0)
    as Hevicted.
  { destruct older as [|oldest older]; [reflexivity|]. cbn [app tail].
    by apply derivative_zero_after_drop. }
  destruct (_maxlen self) as [m|]; [case_bool_decide|];
    first [exact Hevicted | by apply derivative_zero_after_drop].
Qed.

Lemma reading_below_newest_outputs_zero_witness :
  exists rest,
    (_handle_new_reading
       (run (__init__ (Some 3%nat) [5; 10; 20] "adc") (map new_reading [1; 4; 9])).1 2).2
    = agd_output 2 0 :: rest.
Proof.
  apply (reading_below_newest_outputs_zero _ 2 9); [reflexivity|lia].
Defined.

(** *** The buffer of readings *)

Lemma newest_all {A : Type} (m : nat) (l : list A) :
  (length l <= m)%nat -> newest m l = l.
Proof. intros Hlen. unfold newest. replace (length l - m)%nat with 0%nat by lia. reflexivity. Qed.

Lemma newest_length {A : Type} (m : nat) (l : list A) :
  (length (newest m l) <= m)%nat.
Proof. unfold newest. rewrite length_drop. lia. Qed.

Lemma newest_app {A : Type} (m : nat) (l k : list A) :
  newest m (newest m l ++ k) = newest m (l ++ k).
Proof.
  destruct (decide (length l <= m)%nat) as [Hle|Hgt];
    [rewrite (newest_all m l) by exact Hle; reflexivity|].
  unfold newest. rewrite !length_app, length_drop.
  rewrite <- (drop_app_le l k) by lia. rewrite drop_drop. f_equal. lia.
Qed.

Lemma deque_append_newest {A : Type} (m : nat) (d : list A) (x : A) :
  (length d <= m)%nat -> deque_append (Some m) d x = newest m (d ++ [x]).
Proof.
  intros Hlen. unfold deque_append, newest. cbn zeta. rewrite length_app. cbn [length].
  case_bool_decide as Hfull.
  - replace (length d + 1 - m)%nat with 1%nat by (rewrite ?length_app in Hfull; cbn in Hfull; lia).
    destruct (d ++ [x]); reflexivity.
  - replace (length d + 1 - m)%nat with 0%nat by (rewrite ?length_app in Hfull; cbn in Hfull; lia).
    reflexivity.
Qed.

Lemma handle_maxlen (self : AggregatedDerivative) (i : Input) :
  _maxlen (handle self i).1 = _maxlen self.
Proof.
  destruct i as [reading| |level value]; cbn [handle]; [|reflexivity|].
  - unfold _handle_new_reading. case_bool_decide; reflexivity.
  - unfold _set_threshold. destruct (list_setitem _ _ _); reflexivity.
Qed.

Lemma handle_readings (self : AggregatedDerivative) (i : Input) :
  _readings (handle self i).1 =
    match i with
    | new_reading reading => deque_append (_maxlen self) (_readings self) reading
    | _ => _readings self
    end.
Proof.
  destruct i as [reading| |level value]; cbn [handle]; [|reflexivity|].
  - unfold _handle_new_reading. case_bool_decide; reflexivity.
  - unfold _set_threshold. destruct (list_setitem _ _ _); reflexivity.
Qed.

Lemma run_readings_bounded (m : nat) (inputs : list Input) (self : AggregatedDerivative) :
  _maxlen self = Some m ->
  (length (_readings self) <= m)%nat ->
  _readings (run self inputs).1 = newest m (_readings self ++ readings_of inputs).
Proof.
  revert self. induction inputs as [|i inputs IH]; intros self Hmax Hlen.
  - cbn. rewrite app_nil_r. by rewrite newest_all.
  - cbn [run]. pose proof (handle_maxlen self i) as Hmax1.
    pose proof (handle_readings self i) as Hbuf1.
    destruct (handle self i) as [self1 out1]. cbn [fst] in Hmax1, Hbuf1.
    specialize (IH self1). destruct (run self1 inputs) as [self2 out2]. cbn [fst] in *.
    rewrite Hmax in Hmax1. destruct i as [reading| |level value]; cbn beta iota in Hbuf1.
    + rewrite Hmax in Hbuf1. rewrite deque_append_newest in Hbuf1 by exact Hlen.
      rewrite IH by (rewrite ?Hbuf1; auto using newest_length).
      rewrite Hbuf1, newest_app, <- app_assoc. reflexivity.
    + rewrite IH by (rewrite ?Hbuf1; auto). by rewrite Hbuf1.
    + rewrite IH by (rewrite ?Hbuf1; auto). by rewrite Hbuf1.
Qed.

Lemma run_readings_unbounded (inputs : list Input) (self : AggregatedDerivative) :
  _maxlen self = None ->
  _readings (run self inputs).1 = _readings self ++ readings_of inputs.
Proof.
  revert self. induction inputs as [|i inputs IH]; intros self Hmax.
  - cbn. by rewrite app_nil_r.
  - cbn [run]. pose proof (handle_maxlen self i) as Hmax1.
    pose proof (handle_readings self i) as Hbuf1.
    destruct (handle self i) as [self1 out1]. cbn [fst] in Hmax1, Hbuf1.
    specialize (IH self1). destruct (run self1 inputs) as [self2 out2]. cbn [fst] in *.
    rewrite IH by congruence. rewrite Hbuf1.
    destruct i as [reading| |level value]; [|reflexivity|reflexivity].
    rewrite Hmax. cbn. by rewrite <- app_assoc.
Qed.

(** X5. After any inputs to a fresh processor with [buffer_size = m], the buffer
    holds the [m] newest readings received, oldest first, and so never more
    than [m] of them; threshold requests do not touch it. Without a
    [buffer_size] it holds every reading received. *)
Theorem buffer_holds_newest_readings :
  forall (m : nat) (thresholds : list Z) (source : string) (inputs : list Input),
    _readings (run (__init__ (Some m) thresholds source) inputs).1
      = newest m (readings_of inputs) /\
    (length (_readings (run (__init__ (Some m) thresholds source) inputs).1) <= m)%nat /\
    _readings (run (__init__ None thresholds source) inputs).1 = readings_of inputs.
Proof.
  intros m thresholds source inputs.
  assert (_readings (run (__init__ (Some m) thresholds source) inputs).1
          = newest m (readings_of inputs)) as Hbuf.
  { rewrite (run_readings_bounded m) by (cbn; (reflexivity || lia)). reflexivity. }
  split; [exact Hbuf|]. split; [rewrite Hbuf; apply newest_length|].
  by rewrite run_readings_unbounded.
Qed.

(** *** What each input sends *)

Lemma notify_lookup (thresholds : list Z) (start : Z) (i : nat) :
  map (fun '(level, value) => notify_agd_threshold level value)
      (enumerate start thresholds) !! i
  = (fun t => notify_agd_threshold (start + Z.of_nat i) t) <$> thresholds !! i.
Proof.
  revert start i. induction thresholds as [|t ts IH]; intros start i; [by destruct i|].
  cbn [enumerate map]. destruct i as [|i].
  - cbn. do 2 f_equal. lia.
  - etrans; [exact (IH (start + 1) i)|].
    change ((t :: ts) !! S i) with (ts !! i).
    destruct (ts !! i); cbn; [|reflexivity]. do 2 f_equal. lia.
Qed.

Lemma notify_raw_values (self : AggregatedDerivative) :
  raw_values (_notify_agd_thresholds self) = [].
Proof.
  unfold _notify_agd_thresholds. generalize 1.
  induction (_thresholds self) as [|t ts IH]; intros start; [reflexivity|].
  cbn [enumerate map]. cbn. apply IH.
Qed.

(** X6. A request for the thresholds is answered with one notification for each
    entry of the table, in table order, the entry at position [i] under level
    [i + 1]; nothing else is sent and the processor is left as it was. *)
Theorem notify_lists_table_in_level_order :
  forall (self : AggregatedDerivative),
    (handle self request_agd_thresholds).1 = self /\
    threshold_notifications (handle self request_agd_thresholds).2
      = enumerate 1 (_thresholds self) /\
    length (handle self request_agd_thresholds).2 = length (_thresholds self) /\
    forall (i : nat),
      (handle self request_agd_thresholds).2 !! i
      = (fun t => notify_agd_threshold (Z.of_nat i + 1) t) <$> _thresholds self !! i.
Proof.
  intros self. cbn [handle fst snd]. unfold _notify_agd_thresholds.
  split; [reflexivity|]. split; [|split].
  - generalize 1. induction (_thresholds self) as [|t ts IH]; intros start; [reflexivity|].
    cbn [enumerate map]. cbn. f_equal. apply IH.
  - rewrite length_map. generalize 1.
    induction (_thresholds self) as [|t ts IH]; intros start; [reflexivity|].
    cbn [enumerate length]. f_equal. apply IH.
  - intros i. rewrite notify_lookup. destruct (_thresholds self !! i); cbn; [|reflexivity].
    do 2 f_equal. lia.
Qed.

(** X7. A threshold set at a level from 1 to N is what a following request
    reports for that level, and the request reports every other level as
    before. *)
Theorem set_threshold_then_notify :
  forall (self : AggregatedDerivative) (level value : Z) (i : nat),
    1 <= level <= Z.of_nat (length (_thresholds self)) ->
    _notify_agd_thresholds (_set_threshold self level value).1 !! Z.to_nat (level - 1)
      = Some (notify_agd_threshold level value) /\
    (i <> Z.to_nat (level - 1) ->
     _notify_agd_thresholds (_set_threshold self level value).1 !! i
       = _notify_agd_thresholds self !! i).
Proof.
  intros self level value i Hlevel.
  rewrite AgdSpec.set_threshold_in_range by exact Hlevel. cbn [fst].
  unfold _notify_agd_thresholds. cbn [with_thresholds _thresholds].
  rewrite !notify_lookup. split.
  - rewrite list_lookup_insert_eq by lia. cbn. do 2 f_equal. lia.
  - intros Hother. by rewrite list_lookup_insert_ne.
Qed.

Lemma set_threshold_then_notify_witness :
  _notify_agd_thresholds
    (_set_threshold (__init__ (Some 4%nat) [5; 10; 20] "adc") 2 15).1 !! Z.to_nat (2 - 1)
    = Some (notify_agd_threshold 2 15) /\
  (2%nat <> Z.to_nat (2 - 1) ->
   _notify_agd_thresholds (_set_threshold (__init__ (Some 4%nat) [5; 10; 20] "adc") 2 15).1
     !! 2%nat
   = _notify_agd_thresholds (__init__ (Some 4%nat) [5; 10; 20] "adc") !! 2%nat).
Proof.
  apply (set_threshold_then_notify (__init__ (Some 4%nat) [5; 10; 20] "adc") 2 15 2).
  cbn. lia.
Defined.

Lemma handle_thresholds_length (self : AggregatedDerivative) (i : Input) :
  length (_thresholds (handle self i).1) = length (_thresholds self).
Proof.
  destruct i as [reading| |level value]; cbn [handle]; [|reflexivity|].
  - unfold _handle_new_reading. case_bool_decide; reflexivity.
  - unfold _set_threshold, list_setitem. cbn zeta.
    case_bool_decide; [|reflexivity]. cbn. apply length_insert.
Qed.

(** X8. The table never grows or shrinks: whatever levels and values are set,
    in range or not, and whatever readings arrive, it keeps the number of
    entries it was built with. *)
Theorem threshold_table_keeps_its_length :
  forall (self : AggregatedDerivative) (inputs : list Input),
    length (_thresholds (run self inputs).1) = length (_thresholds self).
Proof.
  intros self inputs. revert self.
  induction inputs as [|i inputs IH]; intros self; [reflexivity|].
  cbn [run]. pose proof (handle_thresholds_length self i) as Hstep.
  destruct (handle self i) as [self1 out1]. specialize (IH self1).
  destruct (run self1 inputs) as [self2 out2]. cbn [fst] in *. congruence.
Qed.

Lemma raw_values_app (out1 out2 : list Signal) :
  raw_values (out1 ++ out2) = raw_values out1 ++ raw_values out2.
Proof. unfold raw_values. apply omap_app. Qed.

Lemma handle_raw_values (self : AggregatedDerivative) (i : Input) :
  raw_values (handle self i).2 =
    match i with new_reading reading => [reading] | _ => [] end.
Proof.
  destruct i as [reading| |level value]; cbn [handle snd].
  - unfold _handle_new_reading. case_bool_decide; reflexivity.
  - apply notify_raw_values.
  - unfold _set_threshold. destruct (list_setitem _ _ _); reflexivity.
Qed.

(** X9. Every reading is answered with exactly one [agd_output] carrying it, and
    nothing else sends one: the raw values of the [agd_output] signals of a
    run are the readings received, in the order they came. *)
Theorem one_agd_output_per_reading :
  forall (self : AggregatedDerivative) (inputs : list Input),
    raw_values (run self inputs).2 = readings_of inputs.
Proof.
  intros self inputs. revert self.
  induction inputs as [|i inputs IH]; intros self; [reflexivity|].
  cbn [run]. pose proof (handle_raw_values self i) as Hstep.
  destruct (handle self i) as [self1 out1]. specialize (IH self1).
  destruct (run self1 inputs) as [self2 out2]. cbn [fst snd] in *.
  rewrite raw_values_app, Hstep, IH. by destruct i.
Qed.

(** *** The selected level *)

Lemma scan_range (agd : Z) (thresholds : list Z) :
  0 <= _scan_thresholds agd thresholds <= Z.of_nat (length thresholds).
Proof.
  unfold _scan_thresholds.
  destruct (AgdSpec.scan_fold_cases agd thresholds 1 0)
    as [[-> _]|(i & t & -> & Hi & _)]; [lia|].
  apply lookup_lt_Some in Hi. lia.
Qed.

Lemma handle_play_level_range (self : AggregatedDerivative) (i : Input) (n : Z) :
  Z.of_nat (length (_thresholds self)) = n ->
  0 <= _last_play_level self <= n ->
  0 <= _last_play_level (handle self i).1 <= n /\
  Forall (fun l => 0 <= l <= n) (play_levels (handle self i).2).
Proof.
  intros Hn Hlast. destruct i as [reading| |level value]; cbn [handle fst snd].
  - unfold _handle_new_reading. cbn [_track _thresholds].
    pose proof (scan_range (_aggregated_derivative (_track self reading)) (_thresholds self))
      as Hscan.
    case_bool_decide; cbn; [|by split]. split; [lia|]. constructor; [lia|constructor].
  - rewrite AgdSpec.play_levels_notify. by split.
  - unfold _set_threshold. destruct (list_setitem _ _ _); cbn; by split.
Qed.

(** X10. The play level stays within the table: after any inputs to a fresh
    processor, the last play level and every level sent with
    [change_play_level] lie between 0 and the number of thresholds. *)
Theorem play_level_within_table :
  forall (buffer_size : option nat) (thresholds : list Z) (source : string)
         (inputs : list Input),
    0 <= _last_play_level (run (__init__ buffer_size thresholds source) inputs).1
      <= Z.of_nat (length thresholds) /\
    Forall (fun l => 0 <= l <= Z.of_nat (length thresholds))
      (play_levels (run (__init__ buffer_size thresholds source) inputs).2).
Proof.
  intros buffer_size thresholds source inputs.
  assert (forall (inputs : list Input) (self : AggregatedDerivative) (n : Z),
            Z.of_nat (length (_thresholds self)) = n ->
            0 <= _last_play_level self <= n ->
            0 <= _last_play_level (run self inputs).1 <= n /\
            Forall (fun l => 0 <= l <= n) (play_levels (run self inputs).2)) as Hrun.
  { clear. induction inputs as [|i inputs IH]; intros self n Hn Hlast.
    - cbn. by split.
    - cbn [run]. pose proof (handle_play_level_range self i n Hn Hlast) as [Hlast1 Hout1].
      pose proof (handle_thresholds_length self i) as Hlen1.
      destruct (handle self i) as [self1 out1]. cbn [fst snd] in *.
      destruct (IH self1 n) as [Hlast2 Hout2]; [lia|exact Hlast1|].
      destruct (run self1 inputs) as [self2 out2]. cbn [fst snd] in *.
      split; [exact Hlast2|]. rewrite AgdSpec.play_levels_app. by apply Forall_app. }
  apply Hrun; cbn; [reflexivity|lia].
Qed.

Lemma scan_fold_mono (agd1 agd2 : Z) (thresholds : list Z) (start level1 level2 : Z) :
  agd1 <= agd2 -> level1 <= level2 -> level1 <= start ->
  fold_left (_scan_step agd1) (enumerate start thresholds) level1
  <= fold_left (_scan_step agd2) (enumerate start thresholds) level2.
Proof.
  intros Hagd. revert start level1 level2.
  induction thresholds as [|t ts IH]; intros start level1 level2 Hle Hstart; [exact Hle|].
  cbn [enumerate fold_left]. apply IH; unfold _scan_step; repeat case_bool_decide; lia.
Qed.

(** X11. A larger aggregated value never selects a lower level, whether the
    thresholds of the table are in increasing order or not. *)
Theorem selected_level_monotone_in_value :
  forall (agd1 agd2 : Z) (thresholds : list Z),
    agd1 <= agd2 ->
    _scan_thresholds agd1 thresholds <= _scan_thresholds agd2 thresholds.
Proof.
  intros agd1 agd2 thresholds Hagd. unfold _scan_thresholds.
  apply scan_fold_mono; [exact Hagd|lia|lia].
Qed.

Lemma selected_level_monotone_in_value_witness :
  _scan_thresholds 7 [10; 5; 20] <= _scan_thresholds 12 [10; 5; 20].
Proof. apply selected_level_monotone_in_value. lia. Defined.

Lemma non_decreasing_head_le (t : Z) (thresholds : list Z) :
  non_decreasing (t :: thresholds) -> Forall (fun x => t <= x) thresholds.
Proof.
  revert t. induction thresholds as [|u ts IH]; intros t Hmono; [constructor|].
  assert (t <= u) as Hle by exact (Hmono 0%nat t u eq_refl eq_refl).
  constructor; [exact Hle|].
  eapply Forall_impl; [apply IH, (AgdSpec.non_decreasing_tail t), Hmono|].
  cbn. intros x Hx. lia.
Qed.

Lemma met_cons (agd t : Z) (thresholds : list Z) :
  met agd (t :: thresholds)
  = if decide (t <= agd) then t :: met agd thresholds else met agd thresholds.
Proof. reflexivity. Qed.

Lemma met_none (agd : Z) (thresholds : list Z) :
  Forall (fun x => agd < x) thresholds -> met agd thresholds = [].
Proof.
  induction 1 as [|x l Hx _ IH]; [reflexivity|].
  rewrite met_cons. destruct (decide (x <= agd)); [lia|exact IH].
Qed.

Lemma sorted_scan_fold (agd : Z) (thresholds : list Z) (start level : Z) :
  non_decreasing thresholds ->
  fold_left (_scan_step agd) (enumerate start thresholds) level
  = if bool_decide (met agd thresholds = []) then level
    else start + Z.of_nat (length (met agd thresholds)) - 1.
Proof.
  revert start level. induction thresholds as [|t ts IH]; intros start level Hmono;
    [reflexivity|].
  cbn [enumerate fold_left]. rewrite IH by exact (AgdSpec.non_decreasing_tail t ts Hmono).
  rewrite met_cons. unfold _scan_step. destruct (decide (t <= agd)) as [Hmet|Hunmet].
  - rewrite (bool_decide_true (agd >= t)) by lia.
    rewrite (bool_decide_false (_ :: _ = [])) by discriminate.
    case_bool_decide as Hnil; [rewrite Hnil|]; cbn [length]; lia.
  - rewrite (bool_decide_false (agd >= t)) by lia.
    assert (met agd ts = []) as Hnone.
    { apply met_none. eapply Forall_impl; [exact (non_decreasing_head_le t ts Hmono)|].
      cbn. intros x Hx. lia. }
    rewrite Hnone. rewrite bool_decide_true by reflexivity. reflexivity.
Qed.

(** X12. On a table whose thresholds never decrease from one level to the next,
    the selected level is the number of thresholds the value meets: every
    level up to the selected one is met and none above it. *)
Theorem sorted_table_selects_count_of_met :
  forall (agd : Z) (thresholds : list Z),
    non_decreasing thresholds ->
    _scan_thresholds agd thresholds = Z.of_nat (length (met agd thresholds)).
Proof.
  intros agd thresholds Hmono. unfold _scan_thresholds.
  rewrite sorted_scan_fold by exact Hmono.
  case_bool_decide as Hnil; [rewrite Hnil; reflexivity|lia].
Qed.

Lemma sorted_table_selects_count_of_met_witness :
  _scan_thresholds 12 [5; 10; 20] = Z.of_nat (length (met 12 [5; 10; 20])).
Proof.
  apply sorted_table_selects_count_of_met.
  intros i a b Ha Hb. destruct i as [|[|i]]; cbn in Ha, Hb; simplify_eq; lia.
Defined.

(** *** The sequence of level changes *)

Lemma handle_play_levels (self : AggregatedDerivative) (i : Input) :
  (play_levels (handle self i).2 = [] /\
   _last_play_level (handle self i).1 = _last_play_level self) \/
  (exists l, play_levels (handle self i).2 = [l] /\
             _last_play_level (handle self i).1 = l /\ l <> _last_play_level self).
Proof.
  destruct i as [reading| |level value]; cbn [handle fst snd].
  - unfold _handle_new_reading. case_bool_decide as Hne; [right|left; by split].
    eexists. repeat split. exact Hne.
  - left. by rewrite AgdSpec.play_levels_notify.
  - left. unfold _set_threshold. destruct (list_setitem _ _ _); by split.
Qed.

(** X13. No [change_play_level] repeats the level before it: in the signals of any
    run, each level sent differs from the one sent just before, and the first
    differs from the play level the processor started the run with. *)
Theorem consecutive_level_changes_differ :
  forall (inputs : list Input) (self : AggregatedDerivative),
    adjacent_distinct (_last_play_level self :: play_levels (run self inputs).2) = true.
Proof.
  induction inputs as [|input inputs IH]; intros self; [reflexivity|].
  cbn [run]. pose proof (handle_play_levels self input) as Hstep.
  destruct (handle self input) as [self1 out1]. specialize (IH self1).
  destruct (run self1 inputs) as [self2 out2]. cbn [fst snd] in *.
  rewrite AgdSpec.play_levels_app.
  destruct Hstep as [[Hout Hlast]|(l & Hout & Hlast & Hne)]; rewrite Hout.
  - rewrite <- Hlast. exact IH.
  - subst l. cbn [app adjacent_distinct]. cbn [adjacent_distinct] in IH.
    rewrite (bool_decide_false (_last_play_level self = _)) by congruence.
    exact IH.
Qed.

Example demo_level_changes :
  play_levels (run (__init__ (Some 4%nat) [5; 10; 20] "adc")
                 (map new_reading [1; 3; 13; 2; 9; 9; 30])).2 = [2; 0; 1; 3].
Proof. reflexivity. Qed.

End AgdMore.

(** ** Further properties of the player manager *)

Module PlayerMore.
Import Player.

Lemma issued_app (w w' : World) (added : list (Deferred * PlayerManager)) :
  history w' = history w ++ added -> issued w w' = added.
Proof. intros Hhist. unfold issued. rewrite Hhist. apply drop_app_length. Qed.

Lemma drawn_elem_of (env : Env) (file : string) (pool : list string) :
  drawn env (file :: pool) ∈ file :: pool.
Proof.
  unfold drawn.
  destruct (lookup_lt_is_Some_2 (file :: pool)
              (draw env (file :: pool) mod length (file :: pool))%nat) as [x Hx].
  { apply Nat.mod_upper_bound. cbn [length]. lia. }
  rewrite (nth_lookup_Some _ _ _ _ Hx). by eapply list_elem_of_lookup_2.
Qed.

(** *** Picking a file *)

(** X14. [_get_file_for_level] touches nothing: it returns one of the files
    registered for the level, raises [KeyError] for a level that has no entry
    and [ValueError] for a level whose entry is empty. *)
Theorem get_file_for_level_draws_from_pool :
  forall (env : Env) (w : World) (self : PlayerManager) (n : Z),
    (run env (_get_file_for_level n) w self).1 = (w, self) /\
    (forall file, (run env (_get_file_for_level n) w self).2 = inr file ->
                  exists pool, files self !! n = Some pool /\ file ∈ pool) /\
    (files self !! n = None ->
     (run env (_get_file_for_level n) w self).2 = inl (KeyError (pretty n))) /\
    (files self !! n = Some [] ->
     (run env (_get_file_for_level n) w self).2 = inl ValueError).
Proof.
  intros env w self n. unfold _get_file_for_level, getitem, mbind, task_bind. cbn.
  destruct (files self !! n) as [[|file pool]|]; cbn.
  - repeat split; try discriminate. 
  - repeat split; try discriminate.
    intros f Hf. injection Hf as <-. eexists. split; [reflexivity|apply drawn_elem_of].
  - repeat split; discriminate.
Qed.

Lemma get_file_for_level_draws_from_pool_witness :
  exists pool, files demo_playing_2 !! 1 = Some pool /\ "media/1/glow.mp4" ∈ pool.
Proof.
  apply (proj1 (proj2 (get_file_for_level_draws_from_pool
                         {| draw := fun _ => 3%nat; outcome := fun _ => None |}
                         demo_world demo_playing_2 1))).
  vm_compute. reflexivity.
Defined.

(** *** Level requests *)

(** X15. A level request never lowers the current level, whatever it is asked and
    however it ends, and it never touches the file table, the settings or the
    base player. *)
Theorem level_never_lowers_current_level :
  forall (env : Env) (w : World) (self : PlayerManager) (n : Z),
    current_level self <= current_level (run env (level n) w self).1.2 /\
    files (run env (level n) w self).1.2 = files self /\
    levels (run env (level n) w self).1.2 = levels self /\
    base_player (run env (level n) w self).1.2 = base_player self.
Proof.
  intros env w self n.
  destruct (decide (n < current_level self)) as [Hlt|Hge].
  { rewrite PlayerSpec.level_run_below by exact Hlt. cbn. repeat split; lia. }
  destruct (new_player_of env w self n) as [p|] eqn:Hnew.
  - rewrite (PlayerSpec.level_run_spawned env w self n p Hge Hnew). cbn zeta.
    destruct (outcome env (spawn p (Some n))); [cbn; repeat split; lia|].
    destruct (current_player self) as [old|]; [|cbn; repeat split; lia].
    destruct (outcome env (stop_player old)); cbn; repeat split; lia.
  - destruct (PlayerSpec.level_run_unplayable env w self n Hge Hnew) as [e ->].
    cbn. repeat split; lia.
Qed.

(** X16. When a request that passed the guard returns, the current player is a
    player built by this call: it plays on layer [n] without looping, its
    file is one registered for level [n], its fades are the ones of the
    settings of level [n], and the current level is [n]. *)
Theorem level_commits_player_of_requested_level :
  forall (env : Env) (w : World) (self : PlayerManager) (n : Z),
    current_level self <= n ->
    (run env (level n) w self).2 = inr tt ->
    current_level (run env (level n) w self).1.2 = n /\
    exists p pool info,
      current_player (run env (level n) w self).1.2 = Some p /\
      files self !! n = Some pool /\ filename p ∈ pool /\
      levels self !! pretty n = Some info /\
      fadein p = Some (level_fadein info) /\ fadeout p = Some (level_fadeout info) /\
      layer p = n /\ loop p = false /\ ident p = allocated w /\
      allocated (run env (level n) w self).1.1 = S (allocated w).
Proof.
  intros env w self n Hge Hret.
  destruct (new_player_of env w self n) as [p|] eqn:Hnew.
  - rewrite (PlayerSpec.level_run_spawned env w self n p) in Hret |- * by (lia || exact Hnew).
    cbn zeta in Hret |- *.
    assert (exists pool info,
               files self !! n = Some pool /\ filename p ∈ pool /\
               levels self !! pretty n = Some info /\
               fadein p = Some (level_fadein info) /\ fadeout p = Some (level_fadeout info) /\
               layer p = n /\ loop p = false /\ ident p = allocated w) as Hp.
    { unfold new_player_of in Hnew.
      destruct (files self !! n) as [[|file pool]|]; cbn in Hnew;
        destruct (levels self !! pretty n) as [info|]; cbn in Hnew; try discriminate.
      injection Hnew as <-. exists (file :: pool), info. cbn.
      repeat split. apply drawn_elem_of. }
    destruct Hp as (pool & info & Hp).
    destruct (outcome env (spawn p (Some n))); [discriminate|].
    destruct (current_player self) as [old|].
    + destruct (outcome env (stop_player old)); [discriminate|].
      cbn. split; [reflexivity|]. exists p, pool, info. split; [reflexivity|].
      repeat (split; [apply Hp|]). reflexivity.
    + cbn. split; [reflexivity|]. exists p, pool, info. split; [reflexivity|].
      repeat (split; [apply Hp|]). reflexivity.
  - destruct (PlayerSpec.level_run_unplayable env w self n) as [e He]; [lia|exact Hnew|].
    rewrite He in Hret. discriminate.
Qed.

Lemma level_commits_player_of_requested_level_witness :
  current_level (run demo_env (level 3) demo_world demo_playing_2).1.2 = 3 /\
  exists p pool info,
    current_player (run demo_env (level 3) demo_world demo_playing_2).1.2 = Some p /\
    files demo_playing_2 !! 3 = Some pool /\ filename p ∈ pool /\
    levels demo_playing_2 !! pretty 3 = Some info /\
    fadein p = Some (level_fadein info) /\ fadeout p = Some (level_fadeout info) /\
    layer p = 3 /\ loop p = false /\ ident p = allocated demo_world /\
    allocated (run demo_env (level 3) demo_world demo_playing_2).1.1
      = S (allocated demo_world).
Proof.
  apply (level_commits_player_of_requested_level demo_env demo_world demo_playing_2 3).
  - cbn. lia.
  - vm_compute. reflexivity.
Defined.

(** X17. When the new player has spawned and the stop of the previous one fails,
    the call ends with that failure and commits nothing: the manager still
    names the previous player and the previous level, although the new
    player is running. *)
Theorem failed_stop_commits_nothing :
  forall (env : Env) (w : World) (self : PlayerManager) (n : Z)
         (new_player old : OMXPlayer) (e : Exn),
    current_level self <= n ->
    new_player_of env w self n = Some new_player ->
    outcome env (spawn new_player (Some n)) = None ->
    current_player self = Some old ->
    outcome env (stop_player old) = Some e ->
    (run env (level n) w self).1.2 = self /\
    (run env (level n) w self).2 = inl e /\
    issued w (run env (level n) w self).1.1
      = [(spawn new_player (Some n), self); (stop_player old, self)].
Proof.
  intros env w self n new_player old e Hge Hnew Hspawn Hold Hstop.
  rewrite (PlayerSpec.level_run_spawned env w self n new_player) by (lia || exact Hnew).
  cbn zeta. rewrite Hspawn, Hold, Hstop. cbn [fst snd].
  rewrite PlayerSpec.issued_two. repeat split.
Qed.

Lemma failed_stop_commits_nothing_witness :
  (run {| draw := fun _ => 0%nat;
          outcome := fun d => if is_stop d then Some (Failure "no reply") else None |}
       (level 3) demo_world demo_playing_2).1.2 = demo_playing_2 /\
  (run {| draw := fun _ => 0%nat;
          outcome := fun d => if is_stop d then Some (Failure "no reply") else None |}
       (level 3) demo_world demo_playing_2).2 = inl (Failure "no reply") /\
  issued demo_world
    (run {| draw := fun _ => 0%nat;
            outcome := fun d => if is_stop d then Some (Failure "no reply") else None |}
         (level 3) demo_world demo_playing_2).1.1
    = [(spawn (demo_player 2 "media/3/blaze.mp4" 3 2 4) (Some 3), demo_playing_2);
       (stop_player (demo_player 1 "media/2/flame.mp4" 2 1 3), demo_playing_2)].
Proof.
  apply failed_stop_commits_nothing; try reflexivity.
  cbn. lia.
Defined.

(** X18. Once the foreground player has ended, a request for any level from 0 up
    that can be played is served again, lower than the level that ended or
    not: its player is spawned and, there being no current player, nothing
    is stopped. *)
Theorem request_after_player_ended_is_served :
  forall (env : Env) (w : World) (self : PlayerManager) (ended n : Z),
    0 <= n ->
    playable self n ->
    exists p,
      issued w (run env (level n) w (run env (_player_ended ended) w self).1.2).1.1
      = [(spawn p (Some n), (run env (_player_ended ended) w self).1.2)].
Proof.
  intros env w self ended n Hn Hplay.
  change (run env (_player_ended ended) w self).1.2
    with (set_current_player None (set_current_level 0 self)).
  set (idle := set_current_player None (set_current_level 0 self)).
  assert (playable idle n) as Hplay' by exact Hplay.
  apply (PlayerSpec.new_player_of_playable env w idle n) in Hplay' as [p Hnew].
  exists p. rewrite (PlayerSpec.level_run_spawned env w idle n p) by (cbn; lia || exact Hnew).
  cbn zeta. destruct (outcome env (spawn p (Some n))); cbn [fst snd current_player idle
    set_current_player]; apply PlayerSpec.issued_one.
Qed.

Lemma request_after_player_ended_is_served_witness :
  exists p,
    issued demo_world
      (run demo_env (level 1) demo_world
         (run demo_env (_player_ended 2) demo_world demo_playing_2).1.2).1.1
    = [(spawn p (Some 1), (run demo_env (_player_ended 2) demo_world demo_playing_2).1.2)].
Proof.
  apply request_after_player_ended_is_served; [lia|].
  split; [exists "media/1/spark.mp4", ["media/1/glow.mp4"]; reflexivity|].
  eexists. vm_compute. reflexivity.
Defined.

(** *** Start-up *)

(** X19. [start] connects to D-Bus first, then builds the base player: a looping
    player on layer 0 with no fades and no end callback, on a file registered
    for level 0. It is recorded as the base player before its spawn is
    waited on, and nothing else of the manager changes. *)
Theorem start_spawns_looping_base_player :
  forall (env : Env) (w : World) (self : PlayerManager),
    (run env start w self).2 = inr tt ->
    exists p pool,
      files self !! 0 = Some pool /\ filename p ∈ pool /\
      layer p = 0 /\ loop p = true /\ fadein p = None /\ fadeout p = None /\
      (run env start w self).1.2 = set_base_player (Some p) self /\
      issued w (run env start w self).1.1
        = [(connect_to_dbus, self); (spawn p None, set_base_player (Some p) self)].
Proof.
  intros env w self. unfold start, _get_file_for_level, getitem, yield, mbind, task_bind.
  cbn. destruct (outcome env connect_to_dbus); [discriminate|].
  destruct (files self !! 0) as [[|file pool]|]; cbn; try discriminate.
  destruct (outcome env (spawn _ None)); [discriminate|]. cbn. intros _.
  eexists {| ident := _; filename := drawn env (file :: pool); layer := 0; loop := true;
             fadein := None; fadeout := None |}, (file :: pool).
  split; [reflexivity|]. split; [apply drawn_elem_of|].
  repeat (split; [reflexivity|]).
  apply issued_app. cbn. by rewrite <- app_assoc.
Qed.

Lemma start_spawns_looping_base_player_witness :
  exists p pool,
    files (set_base_player None demo_idle) !! 0 = Some pool /\ filename p ∈ pool /\
    layer p = 0 /\ loop p = true /\ fadein p = None /\ fadeout p = None /\
    (run demo_env start demo_world (set_base_player None demo_idle)).1.2
      = set_base_player (Some p) (set_base_player None demo_idle) /\
    issued demo_world (run demo_env start demo_world (set_base_player None demo_idle)).1.1
      = [(connect_to_dbus, set_base_player None demo_idle);
         (spawn p None, set_base_player (Some p) (set_base_player None demo_idle))].
Proof.
  apply start_spawns_looping_base_player. vm_compute. reflexivity.
Defined.

(** X20. [start] gives up before any player is built when the D-Bus connection
    fails, and after the connection alone when level 0 has no entry or an
    empty one: the manager is unchanged and no spawn is waited on. *)
Theorem start_fails_before_building_a_player :
  forall (env : Env) (w : World) (self : PlayerManager),
    (forall e, outcome env connect_to_dbus = Some e ->
               run env start w self = (record connect_to_dbus self w, self, inl e)) /\
    (outcome env connect_to_dbus = None -> files self !! 0 = None ->
     run env start w self = (record connect_to_dbus self w, self, inl (KeyError "0"))) /\
    (outcome env connect_to_dbus = None -> files self !! 0 = Some [] ->
     run env start w self = (record connect_to_dbus self w, self, inl ValueError)).
Proof.
  intros env w self. unfold start, _get_file_for_level, getitem, yield, mbind, task_bind.
  cbn. repeat split.
  - intros e ->. reflexivity.
  - intros -> ->. reflexivity.
  - intros -> ->. reflexivity.
Qed.

Lemma start_fails_before_building_a_player_witness :
  run demo_env start demo_world
      {| files := ∅; levels := ∅; base_player := None; current_level := 0;
         current_player := None |}
  = (record connect_to_dbus
       {| files := ∅; levels := ∅; base_player := None; current_level := 0;
          current_player := None |} demo_world,
     {| files := ∅; levels := ∅; base_player := None; current_level := 0;
        current_player := None |},
     inl (KeyError "0")).
Proof.
  apply (proj1 (proj2 (start_fails_before_building_a_player demo_env demo_world
          {| files := ∅; levels := ∅; base_player := None; current_level := 0;
             current_player := None |}))); reflexivity.
Defined.

(** X21. When the spawn of the base player fails, [start] ends with the failure,
    but the player that did not start is already recorded as the base
    player. *)
Theorem start_failed_spawn_keeps_base_player :
  forall (env : Env) (w : World) (self : PlayerManager) (file : string)
         (pool : list string) (e : Exn),
    outcome env connect_to_dbus = None ->
    files self !! 0 = Some (file :: pool) ->
    outcome env (spawn {| ident := allocated w; filename := drawn env (file :: pool);
                          layer := 0; loop := true; fadein := None; fadeout := None |}
                   None) = Some e ->
    (run env start w self).2 = inl e /\
    base_player (run env start w self).1.2
      = Some {| ident := allocated w; filename := drawn env (file :: pool);
                layer := 0; loop := true; fadein := None; fadeout := None |}.
Proof.
  intros env w self file pool e Hdbus Hfiles Hspawn.
  unfold start, _get_file_for_level, getitem, yield, mbind, task_bind. cbn.
  rewrite Hdbus, Hfiles. cbn -[drawn]. rewrite Hspawn. split; reflexivity.
Qed.

Lemma start_failed_spawn_keeps_base_player_witness :
  (run demo_env_spawn_fails start demo_world (set_base_player None demo_idle)).2
    = inl (Failure "omxplayer did not start") /\
  base_player (run demo_env_spawn_fails start demo_world (set_base_player None demo_idle)).1.2
    = Some {| ident := allocated demo_world;
              filename := drawn demo_env_spawn_fails ("media/0/idle.mp4" :: []);
              layer := 0; loop := true; fadein := None; fadeout := None |}.
Proof.
  apply start_failed_spawn_keeps_base_player; reflexivity.
Defined.

(** *** Shutdown *)

(** X22. The first [stop] (one called before [done] has fired) stops the
    foreground player first, when there is one, then the base player, and
    fires [done] last; it leaves the fields of the manager as they are, so
    the stopped players are still named by it. *)
Theorem stop_stops_foreground_then_base :
  forall (env : Env) (w : World) (self : PlayerManager) (base : OMXPlayer),
    done w = false ->
    base_player self = Some base ->
    (run env stop w self).2 = inr tt ->
    (run env stop w self).1.2 = self /\
    done (run env stop w self).1.1 = true /\
    issued w (run env stop w self).1.1
      = match current_player self with
        | Some player => [(stop_player player, self); (stop_player base, self)]
        | None => [(stop_player base, self)]
        end.
Proof.
  intros env w self base Hdone Hbase. unfold stop, yield, mbind, task_bind. cbn.
  destruct (current_player self) as [player|]; cbn.
  - destruct (outcome env (stop_player player)); [discriminate|]. cbn. rewrite Hbase. cbn.
    destruct (outcome env (stop_player base)); [discriminate|]. cbn. rewrite Hdone. cbn.
    intros _. repeat split. apply issued_app. cbn. by rewrite <- app_assoc.
  - rewrite Hbase. cbn.
    destruct (outcome env (stop_player base)); [discriminate|]. cbn. rewrite Hdone. cbn.
    intros _. repeat split. by apply issued_app.
Qed.

Lemma stop_stops_foreground_then_base_witness :
  (run demo_env stop demo_world demo_playing_2).1.2 = demo_playing_2 /\
  done (run demo_env stop demo_world demo_playing_2).1.1 = true /\
  issued demo_world (run demo_env stop demo_world demo_playing_2).1.1
    = match current_player demo_playing_2 with
      | Some player => [(stop_player player, demo_playing_2);
                        (stop_player demo_base, demo_playing_2)]
      | None => [(stop_player demo_base, demo_playing_2)]
      end.
Proof.
  apply stop_stops_foreground_then_base; reflexivity.
Defined.

(** X23. When the stop of the foreground player fails, [stop] ends there: the base
    player is not stopped and [done] does not fire. The same holds when there
    is no base player to stop, after the foreground player was stopped. *)
Theorem stop_failure_leaves_base_running :
  forall (env : Env) (w : World) (self : PlayerManager) (player : OMXPlayer),
    current_player self = Some player ->
    (forall e, outcome env (stop_player player) = Some e ->
               run env stop w self = (record (stop_player player) self w, self, inl e)) /\
    (outcome env (stop_player player) = None -> base_player self = None ->
     (run env stop w self).1 = (record (stop_player player) self w, self) /\
     exists e, (run env stop w self).2 = inl e).
Proof.
  intros env w self player Hcur. unfold stop, yield, mbind, task_bind. cbn.
  rewrite Hcur. cbn. split.
  - intros e ->. reflexivity.
  - intros -> Hbase. cbn. rewrite Hbase. cbn. split; [reflexivity|eexists; reflexivity].
Qed.

Lemma stop_failure_leaves_base_running_witness :
  run {| draw := fun _ => 0%nat;
         outcome := fun d => if is_stop d then Some (Failure "no reply") else None |}
      stop demo_world demo_playing_2
  = (record (stop_player (demo_player 1 "media/2/flame.mp4" 2 1 3)) demo_playing_2 demo_world,
     demo_playing_2, inl (Failure "no reply")).
Proof.
  apply (proj1 (stop_failure_leaves_base_running _ demo_world demo_playing_2
                  (demo_player 1 "media/2/flame.mp4" 2 1 3) eq_refl)).
  reflexivity.
Defined.

(** *** Player names *)

Example demo_player_name :
  generate_player_name "media/2/flame.mp4" = "com.nunogodinho.vela2017-flame".
Proof. reflexivity. Qed.

Example demo_player_name_dots :
  generate_player_name "/srv/media.v2/3/big.blaze.mov" = "com.nunogodinho.vela2017-big.blaze".
Proof. reflexivity. Qed.

Example demo_player_name_hidden :
  generate_player_name "media/1/.hidden" = "com.nunogodinho.vela2017-.hidden".
Proof. reflexivity. Qed.

Example demo_player_name_folder :
  generate_player_name "media/1/" = "com.nunogodinho.vela2017-".
Proof. reflexivity. Qed.

Lemma rfind_ge (c : ascii) (s : list ascii) : -1 <= rfind c s.
Proof.
  induction s as [|x s IH]; cbn [rfind]; [lia|]. cbn zeta.
  repeat case_bool_decide; lia.
Qed.

Lemma rfind_not_elem (c : ascii) (s : list ascii) : c ∉ s -> rfind c s = -1.
Proof.
  induction s as [|x s IH]; intros Hc; [reflexivity|].
  apply not_elem_of_cons in Hc as [Hx Hs]. cbn [rfind]. cbn zeta.
  rewrite (IH Hs). rewrite bool_decide_false by lia.
  rewrite bool_decide_false by congruence. reflexivity.
Qed.

Lemma rfind_app_last (c : ascii) (s1 s2 : list ascii) :
  c ∉ s2 -> rfind c (s1 ++ c :: s2) = Z.of_nat (length s1).
Proof.
  intros Hc. induction s1 as [|x s1 IH].
  - cbn [app rfind length]. cbn zeta. rewrite (rfind_not_elem c s2 Hc).
    rewrite bool_decide_false by lia. rewrite bool_decide_true by reflexivity. reflexivity.
  - cbn [app rfind length]. cbn zeta. rewrite IH. rewrite bool_decide_true by lia. lia.
Qed.

Lemma basename_of_path (folder base : list ascii) :
  "/"%char ∉ base -> basename (folder ++ "/"%char :: base) = base.
Proof.
  intros Hsep. unfold basename. cbn zeta. rewrite rfind_app_last by exact Hsep.
  replace (Z.to_nat (Z.of_nat (length folder) + 1)) with (length folder + 1)%nat by lia.
  rewrite <- drop_drop. rewrite drop_app_length. reflexivity.
Qed.

Lemma splitext_of_stem (c : ascii) (stem ext : list ascii) :
  c <> "."%char ->
  "/"%char ∉ c :: stem -> "/"%char ∉ ext -> "."%char ∉ ext ->
  splitext ((c :: stem) ++ "."%char :: ext) = (c :: stem, "."%char :: ext).
Proof.
  intros Hc Hstem Hext Hdot. unfold splitext. cbn zeta.
  rewrite (rfind_not_elem "/"%char).
  2:{ intros H. apply elem_of_app in H as [H|H]; [by apply Hstem|].
      apply elem_of_cons in H as [H|H]; [discriminate|by apply Hext]. }
  rewrite rfind_app_last by exact Hdot.
  rewrite bool_decide_true by lia.
  replace (Z.to_nat (Z.of_nat (length (c :: stem)) - (-1 + 1))) with (S (length stem))
    by (cbn [length]; lia).
  change (Z.to_nat (-1 + 1)) with 0%nat. cbn [_splitext_loop].
  rewrite bool_decide_true by (cbn; congruence).
  rewrite Nat2Z.id. rewrite take_app_length, drop_app_length. reflexivity.
Qed.

Lemma splitext_without_dot (base : list ascii) :
  "."%char ∉ base -> splitext base = (base, []).
Proof.
  intros Hdot. unfold splitext. cbn zeta. rewrite (rfind_not_elem "."%char) by exact Hdot.
  pose proof (rfind_ge "/"%char base). rewrite bool_decide_false by lia. reflexivity.
Qed.

(** X24. The name of a player is the fixed prefix followed by the stem of the file:
    for a file [stem.ext] in any folder, where the stem does not start with a
    dot, the folder and the extension leave no trace in the name; two files
    with the same stem, in different folders or with different extensions,
    get the same name. *)
Theorem player_name_is_prefix_and_stem :
  forall (folder folder' stem ext ext' : list ascii) (c : ascii),
    c <> "."%char ->
    "/"%char ∉ c :: stem ->
    "/"%char ∉ ext -> "."%char ∉ ext ->
    "/"%char ∉ ext' -> "."%char ∉ ext' ->
    generate_player_name
      (String.string_of_list_ascii (folder ++ "/"%char :: (c :: stem) ++ "."%char :: ext))
      = "com.nunogodinho.vela2017-" +:+ String.string_of_list_ascii (c :: stem) /\
    generate_player_name
      (String.string_of_list_ascii (folder ++ "/"%char :: (c :: stem) ++ "."%char :: ext))
      = generate_player_name
          (String.string_of_list_ascii (folder' ++ "/"%char :: (c :: stem) ++ "."%char :: ext')).
Proof.
  intros folder folder' stem ext ext' c Hc Hstem Hext Hdot Hext' Hdot'.
  assert (forall f e, "/"%char ∉ e -> "."%char ∉ e ->
            generate_player_name
              (String.string_of_list_ascii (f ++ "/"%char :: (c :: stem) ++ "."%char :: e))
            = "com.nunogodinho.vela2017-" +:+ String.string_of_list_ascii (c :: stem)) as Hname.
  { intros f e He Hd. unfold generate_player_name.
    rewrite String.list_ascii_of_string_of_list_ascii.
    rewrite basename_of_path.
    2:{ intros H. apply elem_of_app in H as [H|H]; [by apply Hstem|].
        apply elem_of_cons in H as [H|H]; [discriminate|by apply He]. }
    rewrite splitext_of_stem by assumption. reflexivity. }
  split; [by apply Hname|]. rewrite !Hname by assumption. reflexivity.
Qed.

Lemma player_name_is_prefix_and_stem_witness :
  generate_player_name
    (String.string_of_list_ascii
       (String.list_ascii_of_string "media/2" ++ "/"%char ::
        String.list_ascii_of_string "flame" ++ "."%char :: String.list_ascii_of_string "mp4"))
    = "com.nunogodinho.vela2017-"
      +:+ String.string_of_list_ascii (String.list_ascii_of_string "flame") /\
  generate_player_name
    (String.string_of_list_ascii
       (String.list_ascii_of_string "media/2" ++ "/"%char ::
        String.list_ascii_of_string "flame" ++ "."%char :: String.list_ascii_of_string "mp4"))
    = generate_player_name
        (String.string_of_list_ascii
           (String.list_ascii_of_string "media/3" ++ "/"%char ::
            String.list_ascii_of_string "flame" ++ "."%char :: String.list_ascii_of_string "mov")).
Proof.
  apply (player_name_is_prefix_and_stem
           (String.list_ascii_of_string "media/2") (String.list_ascii_of_string "media/3")
           (String.list_ascii_of_string "lame")
           (String.list_ascii_of_string "mp4") (String.list_ascii_of_string "mov") "f"%char);
    [discriminate| | | | |]; vm_compute; intros H; by repeat (inversion H as [|? ? ? H']; clear H; rename H' into H).
Defined.

(** X25. A file whose name has no dot keeps its whole name after the prefix,
    whatever folder it is in. *)
Theorem player_name_without_extension :
  forall (folder base : list ascii),
    "/"%char ∉ base -> "."%char ∉ base ->
    generate_player_name (String.string_of_list_ascii (folder ++ "/"%char :: base))
      = "com.nunogodinho.vela2017-" +:+ String.string_of_list_ascii base.
Proof.
  intros folder base Hsep Hdot. unfold generate_player_name.
  rewrite String.list_ascii_of_string_of_list_ascii.
  rewrite basename_of_path by exact Hsep.
  rewrite splitext_without_dot by exact Hdot. reflexivity.
Qed.

Lemma player_name_without_extension_witness :
  generate_player_name
    (String.string_of_list_ascii
       (String.list_ascii_of_string "media/1" ++ "/"%char :: String.list_ascii_of_string "spark"))
    = "com.nunogodinho.vela2017-"
      +:+ String.string_of_list_ascii (String.list_ascii_of_string "spark").
Proof.
  apply (player_name_without_extension
           (String.list_ascii_of_string "media/1") (String.list_ascii_of_string "spark"));
    vm_compute; intros H;
    by repeat (inversion H as [|? ? ? H']; clear H; rename H' into H).
Defined.

End PlayerMore.
